(** * Executor resolution and the TopK-11 downgrade pass

    A shallow embedding of two pieces of the CPU plugin's preparation core:

    - [intel_cpu]: the class template [ExecutorFactory<Attrs>] of
      [nodes/executors/executor_factory.hpp] (constructor, [filter],
      [getProperMemoryDescriptors], [make]);
    - [pass]: the matcher callback of [ConvertTopK11ToTopK3] of
      [op_conversions/convert_topk11_downgrade.cpp].

    C++ exceptions and undefined behaviour are made explicit by [Result];
    member functions of the factory are computations over the object state. *)

From stdpp Require Import base option list sorting strings gmap fin_maps.

(** ** Outcomes of C++ code *)

(** A call either returns, throws ([OPENVINO_ASSERT], [ov::Exception]) or has
    undefined behaviour (for instance [front()] of an empty vector). *)
Inductive Result (A : Type) : Type :=
| Ok (a : A)
| Throw (what : string)
| Undefined.
Arguments Ok {A} a.
Arguments Throw {A} what.
Arguments Undefined {A}.

Global Instance Result_ret : MRet Result := λ A a, Ok a.
Global Instance Result_bind : MBind Result := λ A B k r,
  match r with
  | Ok a => k a
  | Throw what => Throw what
  | Undefined => Undefined
  end.

(** [OPENVINO_ASSERT(cond, msg)]: throws when the condition is false. *)
Definition OPENVINO_ASSERT (cond : bool) (msg : string) : Result unit :=
  if cond then Ok tt else Throw msg.

(** [std::vector::front()]: the first element; undefined on an empty vector. *)
Definition front {A : Type} (v : list A) : Result A :=
  match v with
  | x :: _ => Ok x
  | [] => Undefined
  end.

(** [std::string::empty()]. *)
Definition string_empty (s : string) : bool := bool_decide (s = EmptyString).

Module intel_cpu.

Section ExecutorFactory.
(** The template parameter and the types of the collaborators of the
    factory, none of which the factory inspects. *)
Context {Attrs MemoryDescArgs MemoryArgs MemoryFormatFilter ExecutorContext : Type}.
(** What an implementation's own factory builds: an executor bound to that
    one implementation. *)
Context {BoundExecutor : Type}.

(** [executor::Config<Attrs>], built as [Config{descs, attrs}]. *)
Record Config : Type := mkConfig {
  descs : MemoryDescArgs;
  attrs : Attrs
}.

(** Modelled from the spec: [ExecutorImplementation<Attrs>] is declared in
    [executor_implementation.hpp], of which only the calls made by the
    factory are known.  The spec's Implementation Descriptor has a name, a support predicate over
    (config, layout filter), a shape-agnostic flag, a fallback predicate
    from a config to an optional fallback config, and a factory
    (attrs, realized memory arguments, context) to an executor. *)
Record ExecutorImplementation : Type := mkImpl {
  name : string;
  supports : Config → MemoryFormatFilter → bool;
  requiresFallback : Config → option Config;
  shapeAgnostic : bool;
  create : Attrs → MemoryArgs → ExecutorContext → BoundExecutor
}.

(** The three shapes of executor [make] hands out.  [Simple] carries what
    the implementation's [create] returned; [Fallback] the arguments of
    [GraphEmitter<Attrs>::fallback]; [VariableExecutor] the arguments of
    the [VariableExecutor<Attrs>] constructor. *)
Inductive ExecutorPtr : Type :=
| Simple (e : BoundExecutor)
| Fallback (config fallbackConfig : Config) (memory : MemoryArgs)
           (context : ExecutorContext) (implName : string)
| VariableExecutor (memory : MemoryArgs) (a : Attrs) (context : ExecutorContext)
                   (implementations : list ExecutorImplementation).

Definition is_Variable (e : ExecutorPtr) : bool :=
  match e with VariableExecutor _ _ _ _ => true | _ => false end.
Definition is_Simple (e : ExecutorPtr) : bool :=
  match e with Simple _ => true | _ => false end.
Definition is_Fallback (e : ExecutorPtr) : bool :=
  match e with Fallback _ _ _ _ _ => true | _ => false end.

(** [getImplementations<Attrs>()]: the registry, in priority order. *)
Variable getImplementations : list ExecutorImplementation.
(** [GraphEmitter<Attrs>::createConfig(memory, attrs)]. *)
Variable createConfig : MemoryArgs → Attrs → Config.

(** The [for] loop of [filter] over the registry.  [continue] goes on with
    the rest, [break] ends the loop. *)
Fixpoint filter_loop (implementations : list ExecutorImplementation)
    (config : Config) (memoryFormatFilter : MemoryFormatFilter)
    (implementationPriority : string) : list ExecutorImplementation :=
  match implementations with
  | [] => []
  | implementation :: rest =>
      if negb (string_empty implementationPriority)
         && negb (bool_decide (name implementation = implementationPriority))
      then filter_loop rest config memoryFormatFilter implementationPriority
      else if negb (supports implementation config memoryFormatFilter)
      then filter_loop rest config memoryFormatFilter implementationPriority
      else implementation ::
           (if shapeAgnostic implementation
            then []
            else filter_loop rest config memoryFormatFilter implementationPriority)
  end.

(** An entry gets past both [continue]s of the loop body: the priority
    override does not exclude it and it supports the configuration. *)
Definition selected (implementation : ExecutorImplementation) (config : Config)
    (memoryFormatFilter : MemoryFormatFilter) (implementationPriority : string) : bool :=
  negb (negb (string_empty implementationPriority)
        && negb (bool_decide (name implementation = implementationPriority)))
  && supports implementation config memoryFormatFilter.

Definition filter (a : Attrs) (descs : MemoryDescArgs)
    (memoryFormatFilter : MemoryFormatFilter)
    (implementationPriority : string) : list ExecutorImplementation :=
  let implementations := getImplementations in
  let config := mkConfig descs a in
  filter_loop implementations config memoryFormatFilter implementationPriority.

(** The data members of [ExecutorFactory<Attrs>]. *)
Record ExecutorFactory : Type := mkFactory {
  m_attrs : Attrs;
  m_context : ExecutorContext;
  m_suitableImplementations : list ExecutorImplementation
}.

(** The constructor: member initialisers, then the assertion. *)
Definition ExecutorFactory_new (a : Attrs) (context : ExecutorContext)
    (descriptors : MemoryDescArgs) (memoryFormatFilter : MemoryFormatFilter)
    (implementationPriority : string) : Result ExecutorFactory :=
  let this := {| m_attrs := a;
                 m_context := context;
                 m_suitableImplementations :=
                   filter a descriptors memoryFormatFilter implementationPriority |} in
  OPENVINO_ASSERT (negb (bool_decide (m_suitableImplementations this = [])))
                  "No suitable implementations found" ≫= λ _,
  Ok this.

(** *** Member functions

    A member function runs on the object: it reads the data members, may
    write them, and returns, throws or is undefined. *)
Definition Method (A : Type) : Type := ExecutorFactory → Result (A * ExecutorFactory).

Global Instance Method_ret : MRet Method := λ A a this, Ok (a, this).
Global Instance Method_bind : MBind Method := λ A B k m this,
  m this ≫= λ r, k r.1 r.2.
Definition member {A} (data_member : ExecutorFactory → A) : Method A :=
  λ this, Ok (data_member this, this).
Definition lift {A} (r : Result A) : Method A :=
  λ this, r ≫= λ a, Ok (a, this).

(** The lambda [getProperMemoryDescArgs] of [getProperMemoryDescriptors]. *)
Definition getProperMemoryDescArgs (impl : ExecutorImplementation)
    (config : Config) : MemoryDescArgs :=
  match requiresFallback impl config with
  | Some fallbackConfig => descs fallbackConfig
  | None => descs config
  end.

Definition getProperMemoryDescriptors (descriptors : MemoryDescArgs)
    : Method (list MemoryDescArgs) :=
  a ← member m_attrs;
  let config := mkConfig descriptors a in
  impls ← member m_suitableImplementations;
  mret ((λ impl, getProperMemoryDescArgs impl config) <$> impls).

Definition make (memory : MemoryArgs) : Method ExecutorPtr :=
  impls ← member m_suitableImplementations;
  a ← member m_attrs;
  context ← member m_context;
  if bool_decide (length impls = 1) then
    let config := createConfig memory a in
    theOnlyImplementation ← lift (front impls);
    match requiresFallback theOnlyImplementation config with
    | Some fallbackConfig =>
        mret (Fallback config fallbackConfig memory context (name theOnlyImplementation))
    | None =>
        mret (Simple (create theOnlyImplementation a memory context))
    end
  else
    mret (VariableExecutor memory a context impls).

(** *** The life of a factory object: any sequence of member calls. *)
Inductive call : ExecutorFactory → ExecutorFactory → Prop :=
| call_getProperMemoryDescriptors this descriptors r this' :
    getProperMemoryDescriptors descriptors this = Ok (r, this') → call this this'
| call_make this memory e this' :
    make memory this = Ok (e, this') → call this this'.

Inductive lifetime : ExecutorFactory → ExecutorFactory → Prop :=
| lifetime_constructed this : lifetime this this
| lifetime_call this mid this' :
    lifetime this mid → call mid this' → lifetime this this'.

End ExecutorFactory.

End intel_cpu.

Module pass.

(** ** The graph

    Nodes live in a store addressed by their identity (in C++, the address
    of the [Node] object held by the shared pointers).  An [Output] is one
    output port of a node; the inputs of a node are the outputs it reads. *)
Record Output : Type := mkOutput {
  get_node : nat;
  get_index : nat
}.

Global Instance Output_eq_dec : EqDecision Output.
Proof. solve_decision. Defined.

Inductive TopKMode : Type := MAX | MIN.
Inductive TopKSortType : Type := NONE | SORT_INDICES | SORT_VALUES.
Inductive element_Type : Type := i32 | i64.

Global Instance TopKMode_eq_dec : EqDecision TopKMode.
Proof. solve_decision. Defined.
Global Instance TopKSortType_eq_dec : EqDecision TopKSortType.
Proof. solve_decision. Defined.
Global Instance element_Type_eq_dec : EqDecision element_Type.
Proof. solve_decision. Defined.

(** The attributes of [opset11::TopK], as read by the getters the callback
    calls, and of [opset3::TopK], as taken by the constructor it calls: the
    version-3 operation has no stable attribute. *)
Record TopK_v11 : Type := mkTopK_v11 {
  get_axis : Z;
  get_mode : TopKMode;
  get_sort_type : TopKSortType;
  get_index_element_type : element_Type;
  get_stable : bool
}.

Record TopK_v3 : Type := mkTopK_v3 {
  v3_axis : Z;
  v3_mode : TopKMode;
  v3_sort_type : TopKSortType;
  v3_index_element_type : element_Type
}.

Global Instance TopK_v11_eq_dec : EqDecision TopK_v11.
Proof. solve_decision. Defined.
Global Instance TopK_v3_eq_dec : EqDecision TopK_v3.
Proof. solve_decision. Defined.

(** The dynamic type of a node: its operation kind and version. *)
Inductive Op : Type :=
| opset11_TopK (a : TopK_v11)
| opset3_TopK (a : TopK_v3)
| other_op (type_name : string) (version : nat).

Global Instance Op_eq_dec : EqDecision Op.
Proof. solve_decision. Defined.

Record Node : Type := mkNode {
  op : Op;
  inputs : list Output;
  get_friendly_name : string;
  get_rt_info : gmap string string
}.

Abbreviation Graph := (gmap nat Node).

(** [Node::input_value(i)]: throws when the index is out of range. *)
Definition input_value (n : Node) (i : nat) : Result Output :=
  match inputs n !! i with
  | Some o => Ok o
  | None => Throw "node input index is out of range"
  end.

(** [pattern::Matcher]: all the callback asks of it is the matched root. *)
Record Matcher : Type := mkMatcher {
  get_match_root : nat
}.

(** [std::dynamic_pointer_cast<opset11::TopK>(p)]: the node seen as a
    version-11 TopK, or null.  The node objects alive are the nodes of the
    graph, which are all the matcher ever hands to the callback: a pointer
    to none of them stands for the null pointer. *)
Definition dynamic_pointer_cast_TopK_v11 (g : Graph) (p : nat)
    : option (Node * TopK_v11) :=
  match g !! p with
  | Some n =>
      match op n with
      | opset11_TopK a => Some (n, a)
      | _ => None
      end
  | None => None
  end.

(** [std::make_shared<opset3::TopK>(data, k, axis, mode, sort, index_element_type)]:
    a new node object, with a default name and no runtime info, at an
    identity no node of the graph has. *)
Definition new_TopK_v3 (data k : Output) (axis : Z) (mode : TopKMode)
    (sort : TopKSortType) (index_element_type : element_Type) : Node :=
  {| op := opset3_TopK (mkTopK_v3 axis mode sort index_element_type);
     inputs := [data; k];
     get_friendly_name := EmptyString;
     get_rt_info := ∅ |}.

Definition make_shared (n : Node) (g : Graph) : nat * Graph :=
  let p := fresh (dom g) in (p, <[p := n]> g).

Definition set_friendly_name (p : nat) (s : string) (g : Graph) : Graph :=
  alter (λ n, {| op := op n; inputs := inputs n;
                 get_friendly_name := s; get_rt_info := get_rt_info n |}) p g.

(** Modelled from the spec: [copy_runtime_info] is defined in [rt_info.hpp],
    of which only this call is known; the spec has the original's provenance
    metadata copied onto the replacement. *)
Definition copy_runtime_info (from to : nat) (g : Graph) : Graph :=
  match g !! from with
  | Some n_from =>
      alter (λ n, {| op := op n; inputs := inputs n;
                     get_friendly_name := get_friendly_name n;
                     get_rt_info := get_rt_info n_from |}) to g
  | None => g
  end.

(** An edge into output [i] of [target] becomes an edge into output [i] of
    [replacement]. *)
Definition redirect (target replacement : nat) (o : Output) : Output :=
  if bool_decide (get_node o = target)
  then mkOutput replacement (get_index o)
  else o.

Definition rewire (target replacement : nat) (n : Node) : Node :=
  {| op := op n;
     inputs := redirect target replacement <$> inputs n;
     get_friendly_name := get_friendly_name n;
     get_rt_info := get_rt_info n |}.

(** Modelled from the spec: [replace_node] is defined in the graph
    utilities, of which only this call is known; the spec has every edge that
    referenced the original node's outputs rewired to the replacement's
    corresponding outputs, and the original node removed. *)
Definition replace_node (target replacement : nat) (g : Graph) : Graph :=
  delete target (rewire target replacement <$> g).

Section ConvertTopK11ToTopK3.
(** The veto the pass configuration supplies.  It receives the node pointer,
    through which it can read the node and what the node is wired to. *)
Variable transformation_callback : Graph → nat → bool.

(** [wrap_type<opset11::TopK>()]. *)
Definition topk_v11_pattern (n : Node) : bool :=
  match op n with
  | opset11_TopK _ => true
  | _ => false
  end.

(** The matcher callback. *)
Definition callback (m : Matcher) (g : Graph) : Result (bool * Graph) :=
  match dynamic_pointer_cast_TopK_v11 g (get_match_root m) with
  | None => Ok (false, g)
  | Some (node, topk_v11) =>
      if get_stable topk_v11 || transformation_callback g (get_match_root m)
      then Ok (false, g)
      else
        data ← input_value node 0;
        k ← input_value node 1;
        let '(topk_v3, g) :=
          make_shared (new_TopK_v3 data k
                         (get_axis topk_v11)
                         (get_mode topk_v11)
                         (get_sort_type topk_v11)
                         (get_index_element_type topk_v11)) g in
        let g := set_friendly_name topk_v3 (get_friendly_name node) g in
        let g := copy_runtime_info (get_match_root m) topk_v3 g in
        let g := replace_node (get_match_root m) topk_v3 g in
        Ok (true, g)
  end.

(** Modelled from the spec: the matcher and the driver that presents nodes to
    the pass belong to the pass manager, of which only [register_matcher] is
    called here.  [apply] matches one node
    against the registered pattern and, on a match, runs the callback on it;
    [sweep] presents the given nodes one after the other; [run_on_model] is
    one full sweep, presenting every node of the graph in the order the
    driver visits them; [run_passes] is the driver's loop, which repeats full
    sweeps until one reports no change or the iteration ceiling is hit. *)
Definition apply (g : Graph) (p : nat) : Result (bool * Graph) :=
  match g !! p with
  | Some n =>
      if topk_v11_pattern n then callback (mkMatcher p) g else Ok (false, g)
  | None => Ok (false, g)
  end.

Fixpoint sweep (ps : list nat) (g : Graph) : Result (bool * Graph) :=
  match ps with
  | [] => Ok (false, g)
  | p :: ps =>
      r ← apply g p;
      r' ← sweep ps r.2;
      Ok (r.1 || r'.1, r'.2)
  end.

Definition run_on_model (order : Graph → list nat) (g : Graph)
    : Result (bool * Graph) :=
  sweep (order g) g.


(** The pass has nothing left to do at [p]: whatever is there is no
    version-11 TopK, or is one that must stay stable or is vetoed. *)
Definition settled (g : Graph) (p : nat) : Prop :=
  ∀ n a, g !! p = Some n → op n = opset11_TopK a →
         get_stable a || transformation_callback g p = true.

(** The verdict on a node depends on the node's own operation, name and
    runtime info only, not on what the node is wired to. *)
Definition veto_local : Prop :=
  ∀ (g g' : Graph) p n n',
    g !! p = Some n → g' !! p = Some n' →
    op n' = op n → get_friendly_name n' = get_friendly_name n →
    get_rt_info n' = get_rt_info n →
    transformation_callback g' p = transformation_callback g p.

End ConvertTopK11ToTopK3.

(** ** Two small graphs

    [chain]: parameters 10 and 11 feed the version-11 TopK 0, whose first
    output feeds the version-11 TopK 1; neither asks for a stable sort.
    [stable_chain]: the same with node 0 asking for a stable sort. *)
Definition parameter (s : string) : Node := mkNode (other_op "Parameter" 0) [] s ∅.

Definition chain : Graph :=
  <[0 := mkNode (opset11_TopK (mkTopK_v11 1 MAX SORT_VALUES i32 false))
                [mkOutput 10 0; mkOutput 11 0] "A" {["origin" := "model"]}]>
  (<[1 := mkNode (opset11_TopK (mkTopK_v11 0 MIN NONE i64 false))
                 [mkOutput 0 0; mkOutput 11 0] "B" ∅]>
  (<[10 := parameter "data"]> (<[11 := parameter "k"]> ∅))).

Definition stable_chain : Graph :=
  <[0 := mkNode (opset11_TopK (mkTopK_v11 1 MAX SORT_VALUES i32 true))
                [mkOutput 10 0; mkOutput 11 0] "A" ∅]> chain.

(** [chain] after the callback has fired on node 0, and after a whole run of
    the pass without veto. *)
Definition chain_root_lowered : Graph :=
  <[12 := mkNode (opset3_TopK (mkTopK_v3 1 MAX SORT_VALUES i32))
                 [mkOutput 10 0; mkOutput 11 0] "A" {["origin" := "model"]}]>
  (<[1 := mkNode (opset11_TopK (mkTopK_v11 0 MIN NONE i64 false))
                 [mkOutput 12 0; mkOutput 11 0] "B" ∅]>
  (<[10 := parameter "data"]> (<[11 := parameter "k"]> ∅))).

Definition chain_lowered : Graph :=
  <[12 := mkNode (opset3_TopK (mkTopK_v3 1 MAX SORT_VALUES i32))
                 [mkOutput 10 0; mkOutput 11 0] "A" {["origin" := "model"]}]>
  (<[13 := mkNode (opset3_TopK (mkTopK_v3 0 MIN NONE i64))
                  [mkOutput 12 0; mkOutput 11 0] "B" ∅]>
  (<[10 := parameter "data"]> (<[11 := parameter "k"]> ∅))).

(** Visit the nodes in the order of their identities; on [chain] and on what
    the pass makes of it, producers come before their consumers. *)
Definition ascending (g : Graph) : list nat := merge_sort (≤) (elements (dom g)).

Definition never (g : Graph) (p : nat) : bool := false.

(** [chain] after one run of the pass under the veto [consumer_is_v11] below,
    and after a second run. *)
Definition chain_once : Graph :=
  <[0 := mkNode (opset11_TopK (mkTopK_v11 1 MAX SORT_VALUES i32 false))
                [mkOutput 10 0; mkOutput 11 0] "A" {["origin" := "model"]}]>
  (<[12 := mkNode (opset3_TopK (mkTopK_v3 0 MIN NONE i64))
                  [mkOutput 0 0; mkOutput 11 0] "B" ∅]>
  (<[10 := parameter "data"]> (<[11 := parameter "k"]> ∅))).

Definition chain_twice : Graph :=
  <[13 := mkNode (opset3_TopK (mkTopK_v3 1 MAX SORT_VALUES i32))
                 [mkOutput 10 0; mkOutput 11 0] "A" {["origin" := "model"]}]>
  (<[12 := mkNode (opset3_TopK (mkTopK_v3 0 MIN NONE i64))
                  [mkOutput 13 0; mkOutput 11 0] "B" ∅]>
  (<[10 := parameter "data"]> (<[11 := parameter "k"]> ∅))).

(** A veto on a downstream constraint: keep a node as long as one of its
    consumers is still a version-11 TopK. *)
Definition consumer_is_v11 (g : Graph) (p : nat) : bool :=
  existsb (λ cn, topk_v11_pattern cn.2
                 && bool_decide (p ∈ get_node <$> inputs cn.2))
          (map_to_list g).

(** ** Measures of a graph *)

(** No input of a node of the graph refers to a node the graph lacks. *)
Definition closed (g : Graph) : Prop :=
  ∀ c n o, g !! c = Some n → o ∈ inputs n → is_Some (g !! get_node o).

(** The number of version-11 TopK nodes of the graph. *)
Definition count_topk_v11 (g : Graph) : nat :=
  size (filter (λ cn : nat * Node, topk_v11_pattern cn.2 = true) g).

End pass.

(** ** A small registry

    Three implementations over two format tags, in priority order: [implA]
    supports [F1] only, [implB] supports both and is shape-agnostic, [implC]
    supports [F2] only.  Descriptors and memory arguments are reduced to their
    format tag; the layout filter is the requested format, if any. *)
Module registry.
Import intel_cpu.

Inductive Format : Type := F1 | F2.

Global Instance Format_eq_dec : EqDecision Format.
Proof. solve_decision. Defined.

Abbreviation Cfg := (@Config unit Format).
Abbreviation Impl := (@ExecutorImplementation unit Format Format (option Format) unit string).

Definition accepts (formats : list Format) (config : Cfg) (requested : option Format) : bool :=
  match requested with
  | Some f => bool_decide (f ∈ formats)
  | None => bool_decide (descs config ∈ formats)
  end.

Definition implA : Impl :=
  mkImpl "A" (accepts [F1]) (λ _, None) false (λ _ _ _, "kernel A").

(** [implB] computes in [F2] and asks for a conversion of anything else. *)
Definition implB : Impl :=
  mkImpl "B" (accepts [F1; F2])
         (λ config, if bool_decide (descs config = F2) then None
                    else Some (mkConfig F2 (attrs config)))
         true (λ _ _ _, "kernel B").

Definition implC : Impl :=
  mkImpl "C" (accepts [F2]) (λ _, None) false (λ _ _ _, "kernel C").

Definition implementations : list Impl := [implA; implB; implC].

Definition createConfig (memory : Format) (a : unit) : Cfg := mkConfig memory a.

(** The default of the constructor's last parameter: no priority override. *)
Definition no_priority : string := EmptyString.

End registry.

(** * Properties of the executor factory *)

Section ExecutorFactory_properties.
Import intel_cpu.
Context {Attrs MemoryDescArgs MemoryArgs MemoryFormatFilter ExecutorContext : Type}.
Context {BoundExecutor : Type}.

Abbreviation Impl := (@ExecutorImplementation Attrs MemoryDescArgs MemoryArgs
                    MemoryFormatFilter ExecutorContext BoundExecutor).
Abbreviation Cfg := (@Config Attrs MemoryDescArgs).

Abbreviation Factory := (@ExecutorFactory Attrs MemoryDescArgs MemoryArgs
                    MemoryFormatFilter ExecutorContext BoundExecutor).

Implicit Types (implementations pre post : list Impl) (x implementation : Impl).
Implicit Types (this : Factory) (getImplementations : list Impl).
Implicit Types (createConfig : MemoryArgs → Attrs → Cfg).
Implicit Types (config : Cfg) (memoryFormatFilter : MemoryFormatFilter).
Implicit Types (implementationPriority : string).

Lemma filter_loop_cons x implementations config memoryFormatFilter implementationPriority :
  filter_loop (x :: implementations) config memoryFormatFilter implementationPriority =
  if selected x config memoryFormatFilter implementationPriority
  then x :: (if shapeAgnostic x then []
             else filter_loop implementations config memoryFormatFilter
                    implementationPriority)
  else filter_loop implementations config memoryFormatFilter implementationPriority.
Proof.
  unfold selected; simpl.
  destruct (negb (string_empty implementationPriority) && _); simpl; [done|].
  by destruct (supports x config memoryFormatFilter).
Qed.

Lemma filter_loop_selected implementations config memoryFormatFilter implementationPriority :
  Forall (λ x, selected x config memoryFormatFilter implementationPriority = true)
         (filter_loop implementations config memoryFormatFilter implementationPriority).
Proof.
  induction implementations as [|x rest IH]; [constructor|].
  rewrite filter_loop_cons.
  destruct (selected x _ _ _) eqn:Hsel; [|done].
  constructor; [done|]. by destruct (shapeAgnostic x).
Qed.

Lemma filter_loop_sublist implementations config memoryFormatFilter implementationPriority :
  filter_loop implementations config memoryFormatFilter implementationPriority
    `sublist_of` implementations.
Proof.
  induction implementations as [|x rest IH]; [constructor|].
  rewrite filter_loop_cons.
  destruct (selected x _ _ _); [|by constructor].
  constructor. destruct (shapeAgnostic x); [apply sublist_nil_l | done].
Qed.

(** The positions of the registry the candidates were taken from. *)
Lemma filter_loop_positions implementations config memoryFormatFilter implementationPriority :
  ∃ positions : list nat,
    StronglySorted lt positions ∧
    Forall2 (λ i c, implementations !! i = Some c) positions
      (filter_loop implementations config memoryFormatFilter implementationPriority).
Proof.
  induction implementations as [|x rest (positions & Hsorted & Hpos)].
  { exists []. split; constructor. }
  assert (Hshift : StronglySorted lt (S <$> positions)).
  { apply (StronglySorted_fmap S lt lt); [|done]. intros i j; simpl; lia. }
  assert (Hzero : Forall (lt 0) (S <$> positions)).
  { apply Forall_fmap, Forall_true. intros i; simpl; lia. }
  rewrite filter_loop_cons.
  destruct (selected x _ _ _).
  - destruct (shapeAgnostic x).
    + exists [0]. split; repeat constructor.
    + exists (0 :: (S <$> positions)). split; [by constructor|].
      constructor; [done|]. by apply Forall2_fmap_l.
  - exists (S <$> positions). split; [done|]. by apply Forall2_fmap_l.
Qed.

(** Everything before the last candidate is shape-dependent. *)
Lemma filter_loop_agnostic_last implementations config memoryFormatFilter
    implementationPriority l1 x l2 :
  filter_loop implementations config memoryFormatFilter implementationPriority
    = l1 ++ x :: l2 →
  shapeAgnostic x = true → l2 = [].
Proof.
  revert l1. induction implementations as [|y rest IH]; intros l1 Heq Hx.
  { by destruct l1. }
  rewrite filter_loop_cons in Heq.
  destruct (selected y _ _ _); [|by eapply IH].
  destruct l1 as [|z l1]; simplify_eq/=.
  - by rewrite Hx.
  - destruct (shapeAgnostic z); [by destruct l1|]. by eapply IH.
Qed.

(** What follows a selected shape-agnostic entry has no influence. *)
Lemma filter_loop_break pre x post post' config memoryFormatFilter implementationPriority :
  selected x config memoryFormatFilter implementationPriority = true →
  shapeAgnostic x = true →
  filter_loop (pre ++ x :: post) config memoryFormatFilter implementationPriority =
  filter_loop (pre ++ x :: post') config memoryFormatFilter implementationPriority.
Proof.
  intros Hsel Hx. induction pre as [|y pre IH]; simpl app.
  - by rewrite !filter_loop_cons, Hsel, Hx.
  - rewrite !filter_loop_cons, IH. done.
Qed.

(** Member functions never write the data members, never throw and are
    never undefined on a factory that has a candidate. *)
Lemma getProperMemoryDescriptors_runs this (descriptors : MemoryDescArgs) :
  getProperMemoryDescriptors descriptors this =
  Ok ((λ impl, getProperMemoryDescArgs impl (mkConfig descriptors (m_attrs this)))
        <$> m_suitableImplementations this, this).
Proof. done. Qed.

Lemma make_single createConfig this (memory : MemoryArgs) x :
  m_suitableImplementations this = [x] →
  make createConfig memory this =
  Ok (match requiresFallback x (createConfig memory (m_attrs this)) with
      | Some fallbackConfig =>
          Fallback (createConfig memory (m_attrs this)) fallbackConfig memory
                   (m_context this) (name x)
      | None => Simple (create x (m_attrs this) memory (m_context this))
      end, this).
Proof.
  intros Hone. unfold make, mbind, Method_bind, member, lift; simpl.
  rewrite Hone; simpl. by destruct (requiresFallback x _).
Qed.

Lemma make_several createConfig this (memory : MemoryArgs) :
  length (m_suitableImplementations this) ≠ 1 →
  make createConfig memory this =
  Ok (VariableExecutor memory (m_attrs this) (m_context this)
        (m_suitableImplementations this), this).
Proof.
  intros Hlen. unfold make, mbind, Method_bind, member; simpl.
  by rewrite bool_decide_eq_false_2.
Qed.

Lemma make_runs createConfig this (memory : MemoryArgs) :
  ∃ e, make createConfig memory this = Ok (e, this).
Proof.
  destruct (decide (length (m_suitableImplementations this) = 1)) as [Hone|Hne].
  - destruct (m_suitableImplementations this) as [|x [|??]] eqn:Himpls; try done.
    erewrite make_single; eauto.
  - erewrite make_several; eauto.
Qed.

Lemma call_same createConfig (this this' : Factory) :
  call createConfig this this' → this' = this.
Proof.
  destruct 1 as [this descriptors r this' Hcall|this memory e this' Hcall].
  - rewrite getProperMemoryDescriptors_runs in Hcall. congruence.
  - destruct (make_runs createConfig this memory) as [e' He']. congruence.
Qed.

Lemma lifetime_same createConfig (this this' : Factory) :
  lifetime createConfig this this' → this' = this.
Proof.
  induction 1 as [|this mid this' _ IH Hcall]; [done|].
  apply call_same in Hcall. congruence.
Qed.

Lemma ExecutorFactory_new_Ok getImplementations (a : Attrs) (context : ExecutorContext)
    (descriptors : MemoryDescArgs) memoryFormatFilter implementationPriority this :
  ExecutorFactory_new getImplementations a context descriptors memoryFormatFilter
    implementationPriority = Ok this →
  this = mkFactory a context
           (filter getImplementations a descriptors memoryFormatFilter
              implementationPriority) ∧
  m_suitableImplementations this ≠ [].
Proof.
  unfold ExecutorFactory_new; simpl. case_bool_decide as Hnil; simpl; [done|].
  intros [= <-]. done.
Qed.

(** An override that names no registered implementation selects nothing. *)
Lemma filter_loop_no_such_name implementations config memoryFormatFilter
    implementationPriority :
  implementationPriority ≠ EmptyString →
  Forall (λ x, name x ≠ implementationPriority) implementations →
  filter_loop implementations config memoryFormatFilter implementationPriority = [].
Proof.
  intros Hset. induction 1 as [|x rest Hx _ IH]; [done|].
  rewrite filter_loop_cons. unfold selected, string_empty.
  by rewrite !bool_decide_eq_false_2.
Qed.

(** C1: on a successfully constructed factory, [make] returns a Variable
    executor exactly when there are two or more candidates; with a single
    candidate it returns a Fallback executor when that candidate's fallback
    predicate, on the config of the realized memory arguments and the stored
    attrs, asks for one, and otherwise the Simple executor of the candidate's
    own factory, so never a Variable executor. *)
Theorem make_shape getImplementations createConfig (a : Attrs) (context : ExecutorContext)
    (descriptors : MemoryDescArgs) memoryFormatFilter implementationPriority
    this (memory : MemoryArgs) :
  ExecutorFactory_new getImplementations a context descriptors memoryFormatFilter
    implementationPriority = Ok this →
  ∃ e, make createConfig memory this = Ok (e, this) ∧
       (is_Variable e = true ↔ 2 ≤ length (m_suitableImplementations this)) ∧
       (∀ x, m_suitableImplementations this = [x] →
          is_Variable e = false ∧
          match requiresFallback x (createConfig memory (m_attrs this)) with
          | Some fallbackConfig =>
              e = Fallback (createConfig memory (m_attrs this)) fallbackConfig
                           memory (m_context this) (name x)
          | None => e = Simple (create x (m_attrs this) memory (m_context this))
          end).
Proof.
  intros [_ Hne]%ExecutorFactory_new_Ok.
  destruct (m_suitableImplementations this) as [|x [|y rest]] eqn:Himpls; [done| |].
  - rewrite (make_single _ _ _ x Himpls).
    destruct (requiresFallback x _) eqn:Hfb; eexists; (split; [done|]);
      (split; [simpl; split; [done|lia]|]);
      intros ? [= <-]; rewrite Hfb; done.
  - rewrite make_several by (rewrite Himpls; simpl; lia).
    eexists; split; [done|]. rewrite Himpls; simpl. split; [split; [lia|done]|done].
Qed.

(** C2: construction fails, with the assertion's message, exactly when
    filtering yields no candidate, which includes a priority override naming
    no registered implementation; a constructed factory holds the filtered
    candidates, at least one, through every later member call, and no member
    call on it throws or is undefined. *)
Theorem construction_fails_iff_no_candidate getImplementations createConfig
    (a : Attrs) (context : ExecutorContext) (descriptors : MemoryDescArgs)
    memoryFormatFilter implementationPriority :
  let candidates :=
    filter getImplementations a descriptors memoryFormatFilter implementationPriority in
  let constructed :=
    ExecutorFactory_new getImplementations a context descriptors memoryFormatFilter
      implementationPriority in
  (constructed = Throw "No suitable implementations found" ↔ candidates = []) ∧
  (constructed = Ok (mkFactory a context candidates) ↔ candidates ≠ []) ∧
  (implementationPriority ≠ EmptyString →
   Forall (λ x, name x ≠ implementationPriority) getImplementations →
   constructed = Throw "No suitable implementations found") ∧
  (∀ this this', constructed = Ok this → lifetime createConfig this this' →
     m_suitableImplementations this' = candidates ∧
     1 ≤ length (m_suitableImplementations this') ∧
     (∀ memory : MemoryArgs, ∃ e, make createConfig memory this' = Ok (e, this')) ∧
     (∀ descs : MemoryDescArgs,
        ∃ r, getProperMemoryDescriptors descs this' = Ok (r, this'))).
Proof.
  intros candidates constructed.
  assert (Hcases : candidates = [] ∧
                   constructed = Throw "No suitable implementations found"
                 ∨ candidates ≠ [] ∧ constructed = Ok (mkFactory a context candidates)).
  { unfold constructed, ExecutorFactory_new; simpl. fold candidates.
    case_bool_decide; [by left | by right]. }
  split_and!.
  - destruct Hcases as [[? ->]|[? ->]]; split; done.
  - destruct Hcases as [[? ->]|[? ->]]; split; done.
  - intros Hset Hnames.
    assert (candidates = []) as Hnil
      by (by apply filter_loop_no_such_name).
    destruct Hcases as [[? ->]|[? ->]]; done.
  - intros this this' Hnew ->%lifetime_same.
    apply ExecutorFactory_new_Ok in Hnew as [Hthis Hne].
    split_and!.
    + by rewrite Hthis.
    + destruct (m_suitableImplementations this); [done|simpl; lia].
    + intros memory. apply make_runs.
    + intros descs. rewrite getProperMemoryDescriptors_runs. eauto.
Qed.

(** C3: a shape-agnostic implementation can only be the last candidate: the
    loop stops after appending a supported shape-agnostic entry, so the
    entries after it in the registry have no part in the result, whether or
    not they would have been supported. *)
Theorem filter_shape_agnostic_short_circuit getImplementations (a : Attrs)
    (descriptors : MemoryDescArgs) memoryFormatFilter implementationPriority :
  (∀ l1 x l2,
     filter getImplementations a descriptors memoryFormatFilter implementationPriority
       = l1 ++ x :: l2 →
     shapeAgnostic x = true → l2 = []) ∧
  (∀ pre x post,
     getImplementations = pre ++ x :: post →
     selected x (mkConfig descriptors a) memoryFormatFilter implementationPriority = true →
     shapeAgnostic x = true →
     filter getImplementations a descriptors memoryFormatFilter implementationPriority
       `sublist_of` pre ++ [x] ∧
     ∀ post',
       filter (pre ++ x :: post') a descriptors memoryFormatFilter implementationPriority =
       filter getImplementations a descriptors memoryFormatFilter implementationPriority).
Proof.
  split.
  - intros l1 x l2. apply filter_loop_agnostic_last.
  - intros pre x post -> Hsel Hx. unfold filter; simpl. split.
    + rewrite (filter_loop_break pre x post []) by done. apply filter_loop_sublist.
    + intros post'. by apply filter_loop_break.
Qed.

(** C4: the candidate list is an order-preserving subsequence of the
    registry: it is a sublist of it, taken from strictly increasing registry
    positions, so that no registry entry is taken twice and candidates keep
    their priority order. *)
Theorem filter_priority_preserving getImplementations (a : Attrs)
    (descriptors : MemoryDescArgs) memoryFormatFilter implementationPriority :
  let candidates :=
    filter getImplementations a descriptors memoryFormatFilter implementationPriority in
  candidates `sublist_of` getImplementations ∧
  (∀ x, x ∈ candidates → x ∈ getImplementations) ∧
  ∃ positions : list nat,
    length positions = length candidates ∧
    NoDup positions ∧
    (∀ i j x, positions !! i = Some j → candidates !! i = Some x →
              getImplementations !! j = Some x) ∧
    (∀ i1 i2 j1 j2, positions !! i1 = Some j1 → positions !! i2 = Some j2 →
                    i1 < i2 → j1 < j2).
Proof.
  intros candidates. unfold candidates, filter; simpl.
  pose proof (filter_loop_sublist getImplementations (mkConfig descriptors a)
                memoryFormatFilter implementationPriority) as Hsub.
  destruct (filter_loop_positions getImplementations (mkConfig descriptors a)
              memoryFormatFilter implementationPriority)
    as (positions & Hsorted & Hpos).
  split_and!; [done| |].
  - intros x Hx. by eapply elem_of_sublist.
  - exists positions. split_and!.
    + by eapply Forall2_length.
    + clear Hpos. induction Hsorted as [|j rest _ IH Hlt]; constructor; [|done].
      intros Hin. rewrite Forall_forall in Hlt. specialize (Hlt _ Hin). lia.
    + intros i j x Hi Hx.
      exact (Forall2_lookup_lr _ _ _ _ _ _ Hpos Hi Hx).
    + clear Hpos. induction Hsorted as [|j rest _ IH Hlt]; [done|].
      intros [|i1] [|i2] j1 j2 H1 H2 Hi; simplify_eq/=; try lia.
      * rewrite Forall_forall in Hlt. apply Hlt. by eapply list_elem_of_lookup_2.
      * eapply IH; eauto. lia.
Qed.

(** C5: [getProperMemoryDescriptors] answers with one descriptor set per
    candidate, in candidate order: the fallback config's descriptors where
    the candidate's fallback predicate, on the config of the argument
    descriptors and the stored attrs, asks for a fallback, and the argument
    descriptors themselves otherwise; the factory is left as it was. *)
Theorem getProperMemoryDescriptors_parallel this (descriptors : MemoryDescArgs) :
  ∃ r, getProperMemoryDescriptors descriptors this = Ok (r, this) ∧
       length r = length (m_suitableImplementations this) ∧
       ∀ i, r !! i =
            (λ x, match requiresFallback x (mkConfig descriptors (m_attrs this)) with
                  | Some fallbackConfig => descs fallbackConfig
                  | None => descriptors
                  end) <$> m_suitableImplementations this !! i.
Proof.
  rewrite getProperMemoryDescriptors_runs. eexists; split; [done|].
  split; [by rewrite length_fmap|].
  intros i. by rewrite list_lookup_fmap.
Qed.

End ExecutorFactory_properties.

(** ** The registry of [registry], queried *)

Section registry_examples.
Import intel_cpu registry.

(** With format [F2] requested, [implA] is excluded, [implB] is taken and
    ends the iteration: [implC] is not reached although it supports [F2]. *)
Example filter_F2 : filter implementations () F1 (Some F2) no_priority = [implB].
Proof. reflexivity. Qed.

Example filter_F1_no_request : filter implementations () F1 None no_priority = [implA; implB].
Proof. reflexivity. Qed.

Example filter_only_C : filter implementations () F2 None "C" = [implC].
Proof. reflexivity. Qed.

Example construct_unknown_name :
  ExecutorFactory_new implementations () () F2 None "Z"
  = Throw "No suitable implementations found".
Proof. reflexivity. Qed.

Example make_two_candidates :
  make createConfig F1 (mkFactory () () [implA; implB])
  = Ok (VariableExecutor F1 () () [implA; implB], mkFactory () () [implA; implB]).
Proof. reflexivity. Qed.

Example make_simple :
  make createConfig F2 (mkFactory () () [implB])
  = Ok (Simple "kernel B", mkFactory () () [implB]).
Proof. reflexivity. Qed.

Example getProperMemoryDescriptors_F1 :
  getProperMemoryDescriptors F1 (mkFactory () () [implA; implB])
  = Ok ([F1; F2], mkFactory () () [implA; implB]).
Proof. reflexivity. Qed.

Lemma make_shape_witness :
  ExecutorFactory_new implementations () () F1 (Some F2) no_priority
    = Ok (mkFactory () () [implB]) ∧
  ∃ e, make createConfig F1 (mkFactory () () [implB])
         = Ok (e, mkFactory () () [implB]) ∧
       (is_Variable e = true ↔ 2 ≤ 1) ∧
       (∀ x, [implB] = [x] →
          is_Variable e = false ∧
          match requiresFallback x (createConfig F1 ()) with
          | Some fallbackConfig =>
              e = Fallback (createConfig F1 ()) fallbackConfig F1 () (name x)
          | None => e = Simple (create x () F1 ())
          end).
Proof.
  split; [reflexivity|].
  apply (make_shape implementations createConfig () () F1 (Some F2) no_priority
           (mkFactory () () [implB]) F1).
  reflexivity.
Defined.

Lemma construction_fails_iff_no_candidate_witness :
  ExecutorFactory_new implementations () () F2 None "Z"
    = Throw "No suitable implementations found" ∧
  (∀ this', lifetime createConfig (mkFactory () () [implB]) this' →
     m_suitableImplementations this' = [implB] ∧
     1 ≤ length (m_suitableImplementations this')).
Proof.
  split.
  - apply (construction_fails_iff_no_candidate implementations createConfig
             () () F2 None "Z").
    + discriminate.
    + repeat constructor; discriminate.
  - intros this' Hlife.
    destruct (construction_fails_iff_no_candidate implementations createConfig
                () () F1 (Some F2) no_priority) as (_ & _ & _ & Hlifetime).
    destruct (Hlifetime (mkFactory () () [implB]) this' eq_refl Hlife)
      as (Hsame & Hlen & _).
    split; [exact Hsame | exact Hlen].
Defined.

Lemma filter_shape_agnostic_short_circuit_witness :
  filter implementations () F1 (Some F2) no_priority = [] ++ implB :: [] ∧
  (∀ post', filter ([implA] ++ implB :: post') () F1 (Some F2) no_priority = [implB]).
Proof.
  destruct (filter_shape_agnostic_short_circuit implementations () F1 (Some F2) no_priority)
    as [Hlast Hbreak].
  split; [reflexivity|].
  intros post'.
  destruct (Hbreak [implA] implB [implC] eq_refl eq_refl eq_refl) as [_ Hsame].
  rewrite (Hsame post'). reflexivity.
Defined.

End registry_examples.

(** * Properties of the TopK-11 downgrade *)

Section ConvertTopK11ToTopK3_properties.
Import pass.
Variable transformation_callback : Graph → nat → bool.

Implicit Types (g : Graph) (m : Matcher) (p root : nat) (node n : Node).
Implicit Types (a : TopK_v11) (data k : Output).

Local Abbreviation callback := (callback transformation_callback).
Local Abbreviation apply := (apply transformation_callback).
Local Abbreviation sweep := (sweep transformation_callback).
Local Abbreviation settled := (settled transformation_callback).

Lemma cast_Some g p node a :
  dynamic_pointer_cast_TopK_v11 g p = Some (node, a) ↔
  g !! p = Some node ∧ op node = opset11_TopK a.
Proof.
  unfold dynamic_pointer_cast_TopK_v11.
  destruct (g !! p) as [n|]; [|by split; [|intros []]].
  destruct (op n) eqn:Hop; split; try done.
  - by intros [= <- <-].
  - intros [[= <-] Hop']. rewrite Hop in Hop'. by simplify_eq.
  - intros [[= <-] Hop']. by rewrite Hop in Hop'.
  - intros [[= <-] Hop']. by rewrite Hop in Hop'.
Qed.

Lemma cast_None g p :
  dynamic_pointer_cast_TopK_v11 g p = None ↔
  ∀ n, g !! p = Some n → topk_v11_pattern n = false.
Proof.
  unfold dynamic_pointer_cast_TopK_v11, topk_v11_pattern.
  destruct (g !! p) as [n|]; [|naive_solver].
  destruct (op n) eqn:Hop; split; try done.
  - intros Hn. specialize (Hn _ eq_refl). by rewrite Hop in Hn.
  - intros _ ? [= <-]. by rewrite Hop.
  - intros _ ? [= <-]. by rewrite Hop.
Qed.

(** The three ways out of the callback. *)
Lemma callback_null m g :
  dynamic_pointer_cast_TopK_v11 g (get_match_root m) = None →
  callback m g = Ok (false, g).
Proof. unfold pass.callback. by intros ->. Qed.

Lemma callback_gate m g node a :
  dynamic_pointer_cast_TopK_v11 g (get_match_root m) = Some (node, a) →
  get_stable a || transformation_callback g (get_match_root m) = true →
  callback m g = Ok (false, g).
Proof. unfold pass.callback. by intros -> ->. Qed.

(** The graph a firing callback leaves: the replacement, named and annotated
    like the original, sits at a new identity; then edges are rewired and the
    original goes. *)
Lemma callback_fires m g node a data k :
  g !! get_match_root m = Some node →
  op node = opset11_TopK a →
  get_stable a = false →
  transformation_callback g (get_match_root m) = false →
  inputs node !! 0 = Some data →
  inputs node !! 1 = Some k →
  callback m g =
  Ok (true,
      replace_node (get_match_root m) (fresh (dom g))
        (<[fresh (dom g) :=
             mkNode (opset3_TopK (mkTopK_v3 (get_axis a) (get_mode a)
                                            (get_sort_type a)
                                            (get_index_element_type a)))
                    [data; k] (get_friendly_name node) (get_rt_info node)]> g)).
Proof.
  intros Hroot Hop Hstable Hveto Hdata Hk.
  assert (Hfresh : fresh (dom g) ≠ get_match_root m).
  { intros Heq. apply (is_fresh (dom g)). rewrite Heq.
    apply elem_of_dom. by eexists. }
  unfold pass.callback.
  rewrite (proj2 (cast_Some _ _ _ _) (conj Hroot Hop)), Hstable, Hveto; simpl.
  unfold input_value. rewrite Hdata, Hk; simpl.
  unfold set_friendly_name, copy_runtime_info, new_TopK_v3.
  rewrite alter_insert_eq; simpl.
  rewrite lookup_insert_ne, Hroot by done.
  by rewrite alter_insert_eq.
Qed.

Lemma callback_cases m g b g' :
  callback m g = Ok (b, g') →
  (b = false ∧ g' = g ∧ settled g (get_match_root m)) ∨
  (∃ node a data k,
     g !! get_match_root m = Some node ∧ op node = opset11_TopK a ∧
     get_stable a = false ∧
     transformation_callback g (get_match_root m) = false ∧
     inputs node !! 0 = Some data ∧ inputs node !! 1 = Some k ∧
     b = true).
Proof.
  destruct (dynamic_pointer_cast_TopK_v11 g (get_match_root m))
    as [[node a]|] eqn:Hcast.
  - apply cast_Some in Hcast as Hnode. destruct Hnode as [Hroot Hop].
    destruct (get_stable a || transformation_callback g (get_match_root m))
      eqn:Hgate.
    + rewrite (callback_gate _ _ _ _ Hcast Hgate). intros [= <- <-].
      left. split_and!; [done..|].
      intros n a' Hn Hop'. rewrite Hroot in Hn. injection Hn as <-.
      rewrite Hop in Hop'. injection Hop' as <-. exact Hgate.
    + apply orb_false_iff in Hgate as [Hstable Hveto].
      destruct (inputs node !! 0) as [data|] eqn:Hdata.
      2:{ unfold pass.callback, input_value.
          rewrite Hcast, Hstable, Hveto, Hdata. done. }
      destruct (inputs node !! 1) as [k|] eqn:Hk.
      2:{ unfold pass.callback, input_value.
          rewrite Hcast, Hstable, Hveto, Hdata, Hk. done. }
      rewrite (callback_fires _ _ _ _ _ _ Hroot Hop Hstable Hveto Hdata Hk).
      intros [= <- <-]. right. by exists node, a, data, k.
  - rewrite (callback_null _ _ Hcast). intros [= <- <-].
    left. split_and!; [done..|].
    intros n a Hn Hop. rewrite cast_None in Hcast.
    specialize (Hcast _ Hn). unfold topk_v11_pattern in Hcast.
    by rewrite Hop in Hcast.
Qed.

(** The graph of [callback_fires], node by node. *)
Lemma fresh_unused g : g !! fresh (dom g) = None.
Proof. apply not_elem_of_dom, is_fresh. Qed.

Lemma fresh_ne g p n : g !! p = Some n → fresh (dom g) ≠ p.
Proof. intros Hp Heq. rewrite <-Heq, fresh_unused in Hp. done. Qed.

Lemma replace_node_target g target replacement :
  replace_node target replacement g !! target = None.
Proof. apply lookup_delete_eq. Qed.

Lemma replace_node_other g target replacement c :
  c ≠ target →
  replace_node target replacement g !! c = rewire target replacement <$> g !! c.
Proof.
  intros Hc. unfold replace_node.
  by rewrite lookup_delete_ne, lookup_fmap.
Qed.

Lemma redirect_away target replacement o :
  target ≠ replacement → get_node (redirect target replacement o) ≠ target.
Proof. intros Hne. unfold redirect. case_bool_decide; simpl; congruence. Qed.

Lemma redirect_id target replacement o :
  get_node o ≠ target → redirect target replacement o = o.
Proof. intros Hne. unfold redirect. by rewrite bool_decide_eq_false_2. Qed.

Lemma rewire_own_data target replacement n :
  op (rewire target replacement n) = op n ∧
  get_friendly_name (rewire target replacement n) = get_friendly_name n ∧
  get_rt_info (rewire target replacement n) = get_rt_info n.
Proof. done. Qed.

(** C6: a node that is no version-11 TopK, or asks for a stable sort, or is
    vetoed, is declined: the pass and its callback answer [false] and hand
    back the very same graph. *)
Theorem declined_rewrite_untouched g p n :
  g !! p = Some n →
  topk_v11_pattern n = false
  ∨ (∃ a, op n = opset11_TopK a ∧ get_stable a = true)
  ∨ transformation_callback g p = true →
  apply g p = Ok (false, g) ∧ callback (mkMatcher p) g = Ok (false, g).
Proof.
  intros Hn Hdeclined.
  assert (Hcb : callback (mkMatcher p) g = Ok (false, g)).
  { destruct (dynamic_pointer_cast_TopK_v11 g p) as [[node a]|] eqn:Hcast;
      [|by apply callback_null].
    apply cast_Some in Hcast as Hnode. destruct Hnode as [Hroot Hop].
    rewrite Hn in Hroot. injection Hroot as <-.
    apply (callback_gate (mkMatcher p) g n a Hcast); simpl.
    destruct Hdeclined as [Hpat|[(a' & Hop' & Hstable)|Hveto]].
    - unfold topk_v11_pattern in Hpat. by rewrite Hop in Hpat.
    - rewrite Hop in Hop'. injection Hop' as <-. by rewrite Hstable.
    - rewrite Hveto. apply orb_true_r. }
  split; [|done].
  unfold pass.apply. rewrite Hn. by destruct (topk_v11_pattern n).
Qed.

(** C7: on a version-11 TopK reading [data] and [k], not stable and not
    vetoed, the callback answers [true]; a version-3 TopK with the same two
    inputs, the same axis, mode, sort type and index element type, the same
    friendly name and runtime info stands at a new identity; every other
    node is as before but for its edges into the original, which now enter
    the same output of the replacement; the original is gone and no edge
    refers to it. *)
Theorem callback_replaces m g node a data k :
  g !! get_match_root m = Some node →
  op node = opset11_TopK a →
  inputs node = [data; k] →
  get_node data ≠ get_match_root m → get_node k ≠ get_match_root m →
  get_stable a = false →
  transformation_callback g (get_match_root m) = false →
  ∃ g' new,
    callback m g = Ok (true, g') ∧
    apply g (get_match_root m) = Ok (true, g') ∧
    g !! new = None ∧
    g' !! new =
      Some (mkNode (opset3_TopK (mkTopK_v3 (get_axis a) (get_mode a)
                                           (get_sort_type a)
                                           (get_index_element_type a)))
                   [data; k] (get_friendly_name node) (get_rt_info node)) ∧
    g' !! get_match_root m = None ∧
    (∀ c, c ≠ get_match_root m → c ≠ new →
       g' !! c =
       (λ n, mkNode (op n)
               ((λ o, if bool_decide (get_node o = get_match_root m)
                      then mkOutput new (get_index o) else o) <$> inputs n)
               (get_friendly_name n) (get_rt_info n)) <$> g !! c) ∧
    (∀ c n o, g' !! c = Some n → o ∈ inputs n → get_node o ≠ get_match_root m).
Proof.
  intros Hroot Hop Hin Hdata Hk Hstable Hveto.
  pose proof (fresh_ne _ _ _ Hroot) as Hnew.
  assert (Hcb : callback m g = Ok (true,
            replace_node (get_match_root m) (fresh (dom g))
              (<[fresh (dom g) :=
                   mkNode (opset3_TopK (mkTopK_v3 (get_axis a) (get_mode a)
                                                  (get_sort_type a)
                                                  (get_index_element_type a)))
                          [data; k] (get_friendly_name node) (get_rt_info node)]> g))).
  { apply (callback_fires m g node a data k); try done; by rewrite Hin. }
  eexists _, (fresh (dom g)). split; [exact Hcb|]. split.
  { unfold pass.apply, topk_v11_pattern. rewrite Hroot, Hop.
    by destruct m. }
  split; [apply fresh_unused|].
  split_and!.
  - rewrite replace_node_other, lookup_insert_eq by done. simpl.
    unfold rewire; simpl. by rewrite !redirect_id.
  - apply replace_node_target.
  - intros c Hc Hc'. by rewrite replace_node_other, lookup_insert_ne.
  - intros c n o Hn Ho.
    destruct (decide (c = get_match_root m)) as [->|Hc].
    { by rewrite replace_node_target in Hn. }
    rewrite replace_node_other in Hn by done.
    apply fmap_Some in Hn as (n0 & _ & ->). simpl in Ho.
    apply list_elem_of_fmap in Ho as (o0 & -> & _).
    apply redirect_away. congruence.
Qed.

(** C9: when the matched root is not a version-11 TopK, so that the cast
    gives null, the callback answers [false] at once, whatever the veto
    would have said: it returns, and returns the graph as it was. *)
Theorem callback_total_on_null m g :
  dynamic_pointer_cast_TopK_v11 g (get_match_root m) = None →
  callback m g = Ok (false, g) ∧
  ∀ any_veto, pass.callback any_veto m g = Ok (false, g).
Proof.
  intros Hcast. split; [by apply callback_null|].
  intros any_veto. unfold pass.callback. by rewrite Hcast.
Qed.

(** C10: whenever the callback fires, the original is a version-11 TopK whose
    stable flag is off, and the replacement is the version-3 TopK made of its
    inputs 0 and 1 and of its axis, mode, sort type and index element type:
    a version-3 TopK has no other attribute, and the stable flag it lacks was
    [false]. *)
Theorem replacement_built_from m g g' :
  callback m g = Ok (true, g') →
  ∃ node a data k,
    g !! get_match_root m = Some node ∧
    op node = opset11_TopK a ∧
    get_stable a = false ∧
    input_value node 0 = Ok data ∧
    input_value node 1 = Ok k ∧
    g' = replace_node (get_match_root m) (fresh (dom g))
           (copy_runtime_info (get_match_root m) (fresh (dom g))
              (set_friendly_name (fresh (dom g)) (get_friendly_name node)
                 (<[fresh (dom g) :=
                      new_TopK_v3 data k (get_axis a) (get_mode a)
                        (get_sort_type a) (get_index_element_type a)]> g))) ∧
    ∃ topk_v3 t,
      g' !! fresh (dom g) = Some topk_v3 ∧
      op topk_v3 = opset3_TopK t ∧
      t = mkTopK_v3 (get_axis a) (get_mode a) (get_sort_type a)
                    (get_index_element_type a) ∧
      a = mkTopK_v11 (v3_axis t) (v3_mode t) (v3_sort_type t)
                     (v3_index_element_type t) false ∧
      inputs topk_v3 =
        redirect (get_match_root m) (fresh (dom g)) <$> [data; k].
Proof.
  intros Hcb.
  destruct (callback_cases _ _ _ _ Hcb)
    as [(? & _)|(node & a & data & k & Hroot & Hop & Hstable & Hveto & Hd & Hk & _)];
    [done|].
  pose proof (fresh_ne _ _ _ Hroot) as Hnew.
  exists node, a, data, k.
  split_and!; try done; try (unfold input_value; by rewrite ?Hd, ?Hk).
  - revert Hcb. unfold pass.callback.
    rewrite (proj2 (cast_Some _ _ _ _) (conj Hroot Hop)), Hstable, Hveto; simpl.
    unfold input_value. rewrite Hd, Hk; simpl. by intros [= <-].
  - rewrite (callback_fires _ _ _ _ _ _ Hroot Hop Hstable Hveto Hd Hk) in Hcb.
    injection Hcb as <-.
    eexists _, _. rewrite replace_node_other, lookup_insert_eq by done.
    split_and!; [done..| |done].
    destruct a; simpl in *. by rewrite Hstable.
Qed.

(** ** Sweeps *)


Lemma apply_cases g p b g' :
  apply g p = Ok (b, g') →
  (b = false ∧ g' = g ∧ settled g p) ∨
  (∃ node a data k,
     g !! p = Some node ∧
     g' = replace_node p (fresh (dom g))
            (<[fresh (dom g) :=
                 mkNode (opset3_TopK (mkTopK_v3 (get_axis a) (get_mode a)
                                                (get_sort_type a)
                                                (get_index_element_type a)))
                        [data; k] (get_friendly_name node) (get_rt_info node)]> g)).
Proof.
  unfold pass.apply. destruct (g !! p) as [n|] eqn:Hn.
  2:{ intros [= <- <-]. left. split_and!; [done..|]. intros ??. by rewrite Hn. }
  destruct (topk_v11_pattern n) eqn:Hpat.
  2:{ intros [= <- <-]. left. split_and!; [done..|].
      intros n' a Hn' Hop. rewrite Hn in Hn'. injection Hn' as <-.
      unfold topk_v11_pattern in Hpat. by rewrite Hop in Hpat. }
  intros Hcb.
  destruct (callback_cases _ _ _ _ Hcb)
    as [Hleft|(node & a & data & k & Hroot & Hop & Hstable & Hveto & Hd & Hk & ->)].
  { left. exact Hleft. }
  right.
  rewrite (callback_fires _ _ _ _ _ _ Hroot Hop Hstable Hveto Hd Hk) in Hcb.
  injection Hcb as <-. simpl in *. exists node, a, data, k.
  split; [congruence|reflexivity].
Qed.

(** One step settles the node it was presented and unsettles none, as long
    as the veto looks at nothing a rewiring changes. *)
Lemma apply_settles g p b g' :
  veto_local transformation_callback →
  apply g p = Ok (b, g') →
  settled g' p ∧ ∀ c, settled g c → settled g' c.
Proof.
  intros Hlocal
    [(-> & -> & Hp)|(node & a & data & k & Hroot & ->)]%apply_cases; [done|].
  pose proof (fresh_ne _ _ _ Hroot) as Hnew.
  split.
  { intros n a'. by rewrite replace_node_target. }
  intros c Hc n a' Hn Hop.
  destruct (decide (c = p)) as [->|Hcp].
  { by rewrite replace_node_target in Hn. }
  rewrite replace_node_other in Hn by done.
  destruct (decide (c = fresh (dom g))) as [->|Hcnew].
  { rewrite lookup_insert_eq in Hn. by injection Hn as <-. }
  rewrite lookup_insert_ne in Hn by done.
  apply fmap_Some in Hn as (n0 & Hn0 & ->).
  specialize (Hc n0 a' Hn0 Hop).
  erewrite (Hlocal g _ c n0 (rewire p (fresh (dom g)) n0)); [done..| | | |]; try done.
  by rewrite replace_node_other, lookup_insert_ne, Hn0.
Qed.

Lemma sweep_cons p ps g :
  sweep (p :: ps) g =
  match apply g p with
  | Ok r =>
      match sweep ps r.2 with
      | Ok r' => Ok (r.1 || r'.1, r'.2)
      | Throw what => Throw what
      | Undefined => Undefined
      end
  | Throw what => Throw what
  | Undefined => Undefined
  end.
Proof. done. Qed.

Lemma sweep_settles ps :
  veto_local transformation_callback →
  ∀ g b g1,
    sweep ps g = Ok (b, g1) →
    (∀ c, c ∉ ps → settled g c) →
    ∀ c, settled g1 c.
Proof.
  intros Hlocal. induction ps as [|p ps IH]; intros g b g1 Hsweep Hrest.
  { injection Hsweep as <- <-. intros c. apply Hrest, not_elem_of_nil. }
  rewrite sweep_cons in Hsweep.
  destruct (apply g p) as [[b0 g0]| |] eqn:Hstep; try done. simpl in Hsweep.
  destruct (sweep ps g0) as [[b' g0']| |] eqn:Htail; try done.
  injection Hsweep as <- <-.
  destruct (apply_settles _ _ _ _ Hlocal Hstep) as [Hp Hkeep].
  apply (IH g0 b' g0' Htail).
  intros c Hc. destruct (decide (c = p)) as [->|Hcp]; [done|].
  apply Hkeep, Hrest. rewrite not_elem_of_cons. done.
Qed.



End ConvertTopK11ToTopK3_properties.

(** ** The pass on the graphs of [pass] *)

Section graph_examples.
Import pass.

Lemma ascending_all (g : Graph) (p : nat) : is_Some (g !! p) → p ∈ ascending g.
Proof.
  intros Hp. unfold ascending.
  rewrite merge_sort_Permutation. by apply elem_of_elements, elem_of_dom.
Qed.

Lemma never_local : veto_local never.
Proof. by intros g g' p n n' _ _ _ _ _. Qed.

Example chain_first_run :
  run_on_model consumer_is_v11 ascending chain = Ok (true, chain_once).
Proof. vm_compute. reflexivity. Qed.

Example chain_second_run :
  run_on_model consumer_is_v11 ascending chain_once = Ok (true, chain_twice).
Proof. vm_compute. reflexivity. Qed.

(** The verdict of [consumer_is_v11] on node 0 changes once its consumer has
    been lowered. *)
Example consumer_is_v11_not_local :
  consumer_is_v11 chain 0 = true ∧ consumer_is_v11 chain_once 0 = false.
Proof. split; vm_compute; reflexivity. Qed.

(** One sweep is not always the end of it: under a veto on a downstream
    constraint, a sweep over [chain] keeps node 0, and the next sweep, over
    the graph the first has left, lowers it. *)
Lemma single_sweep_not_enough :
  run_on_model consumer_is_v11 ascending chain = Ok (true, chain_once) ∧
  run_on_model consumer_is_v11 ascending chain_once = Ok (true, chain_twice) ∧
  chain_twice ≠ chain_once ∧
  ¬ (∀ veto order g b g1,
       (∀ p, is_Some (g !! p) → p ∈ order g) →
       run_on_model veto order g = Ok (b, g1) →
       ∃ b', run_on_model veto order g1 = Ok (b', g1)).
Proof.
  assert (Hne : chain_twice ≠ chain_once).
  { intros Heq. assert (chain_twice !! 0 = chain_once !! 0) as H0 by by rewrite Heq.
    vm_compute in H0. discriminate. }
  split; [exact chain_first_run|]. split; [exact chain_second_run|].
  split; [exact Hne|].
  intros Hidem.
  destruct (Hidem consumer_is_v11 ascending chain true chain_once
              (ascending_all chain) chain_first_run) as [b' Hb'].
  rewrite chain_second_run in Hb'. injection Hb' as _ Heq. by apply Hne.
Qed.

Lemma declined_rewrite_untouched_witness :
  apply never stable_chain 0 = Ok (false, stable_chain) ∧
  callback never (mkMatcher 0) stable_chain = Ok (false, stable_chain).
Proof.
  apply (declined_rewrite_untouched never stable_chain 0
           (mkNode (opset11_TopK (mkTopK_v11 1 MAX SORT_VALUES i32 true))
                   [mkOutput 10 0; mkOutput 11 0] "A" ∅)).
  - vm_compute. reflexivity.
  - right. left. eexists. split; reflexivity.
Defined.

Lemma callback_replaces_witness :
  ∃ g' new,
    callback never (mkMatcher 0) chain = Ok (true, g') ∧
    apply never chain 0 = Ok (true, g') ∧
    chain !! new = None ∧
    g' !! new =
      Some (mkNode (opset3_TopK (mkTopK_v3 1 MAX SORT_VALUES i32))
                   [mkOutput 10 0; mkOutput 11 0] "A" {["origin" := "model"]}) ∧
    g' !! 0 = None ∧
    (∀ c, c ≠ 0 → c ≠ new →
       g' !! c =
       (λ n, mkNode (op n)
               ((λ o, if bool_decide (get_node o = 0)
                      then mkOutput new (get_index o) else o) <$> inputs n)
               (get_friendly_name n) (get_rt_info n)) <$> chain !! c) ∧
    (∀ c n o, g' !! c = Some n → o ∈ inputs n → get_node o ≠ 0).
Proof.
  assert (Hroot : chain !! 0 =
            Some (mkNode (opset11_TopK (mkTopK_v11 1 MAX SORT_VALUES i32 false))
                    [mkOutput 10 0; mkOutput 11 0] "A" {["origin" := "model"]}))
    by (vm_compute; reflexivity).
  assert (Hdata : 10 ≠ 0) by lia.
  assert (Hk : 11 ≠ 0) by lia.
  exact (callback_replaces never (mkMatcher 0) chain _
           (mkTopK_v11 1 MAX SORT_VALUES i32 false)
           (mkOutput 10 0) (mkOutput 11 0)
           Hroot eq_refl eq_refl Hdata Hk eq_refl eq_refl).
Defined.

Lemma callback_total_on_null_witness :
  callback never (mkMatcher 10) chain = Ok (false, chain) ∧
  ∀ any_veto, callback any_veto (mkMatcher 10) chain = Ok (false, chain).
Proof.
  apply (callback_total_on_null never (mkMatcher 10) chain).
  vm_compute. reflexivity.
Defined.

Example callback_on_chain_root :
  callback never (mkMatcher 0) chain = Ok (true, chain_root_lowered).
Proof. vm_compute. reflexivity. Qed.

Example chain_run_no_veto :
  run_on_model never ascending chain = Ok (true, chain_lowered).
Proof. vm_compute. reflexivity. Qed.

Example stable_chain_run :
  ∃ g, run_on_model never ascending stable_chain = Ok (true, g) ∧
       op <$> g !! 0 = Some (opset11_TopK (mkTopK_v11 1 MAX SORT_VALUES i32 true)) ∧
       g !! 1 = None.
Proof. eexists. split; [vm_compute; reflexivity|]. split; vm_compute; reflexivity. Qed.

Lemma replacement_built_from_witness :
  callback never (mkMatcher 0) chain = Ok (true, chain_root_lowered) ∧
  ∃ node a data k,
    chain !! 0 = Some node ∧
    op node = opset11_TopK a ∧
    get_stable a = false ∧
    input_value node 0 = Ok data ∧
    input_value node 1 = Ok k ∧
    ∃ topk_v3 t,
      chain_root_lowered !! fresh (dom chain) = Some topk_v3 ∧
      op topk_v3 = opset3_TopK t ∧
      a = mkTopK_v11 (v3_axis t) (v3_mode t) (v3_sort_type t)
                     (v3_index_element_type t) false.
Proof.
  split; [exact callback_on_chain_root|].
  destruct (replacement_built_from never (mkMatcher 0) chain chain_root_lowered
              callback_on_chain_root)
    as (node & a & data & k & Hroot & Hop & Hstable & Hdata & Hk & _ &
        topk_v3 & t & Hnew & Hop3 & _ & Ha & _).
  exists node, a, data, k. repeat (split; [assumption|]).
  exists topk_v3, t. repeat (split; [assumption|]). assumption.
Defined.

End graph_examples.

(** * Further properties of the executor factory *)

Section ExecutorFactory_further.
Import intel_cpu.
Context {Attrs MemoryDescArgs MemoryArgs MemoryFormatFilter ExecutorContext : Type}.
Context {BoundExecutor : Type}.

Abbreviation Impl' := (@ExecutorImplementation Attrs MemoryDescArgs MemoryArgs
                         MemoryFormatFilter ExecutorContext BoundExecutor).
Abbreviation Cfg' := (@Config Attrs MemoryDescArgs).
Abbreviation Factory' := (@ExecutorFactory Attrs MemoryDescArgs MemoryArgs
                            MemoryFormatFilter ExecutorContext BoundExecutor).

Implicit Types (getImplementations pre post rest higher lower : list Impl') (x y : Impl').
Implicit Types (a : Attrs) (d descriptors : MemoryDescArgs) (config : Cfg').
Implicit Types (mff : MemoryFormatFilter) (p : string) (this : Factory').
Implicit Types (context : ExecutorContext) (memory : MemoryArgs).
Implicit Types (createConfig : MemoryArgs → Attrs → Cfg').

Lemma selected_true x config mff p :
  selected x config mff p = true ↔
  (p = EmptyString ∨ name x = p) ∧ supports x config mff = true.
Proof.
  unfold selected, string_empty.
  rewrite andb_true_iff, negb_true_iff, andb_false_iff, !negb_false_iff,
    !bool_decide_eq_true. done.
Qed.

(** Every candidate is a registry entry that supports the configuration
    under the layout filter and, when an override is given, bears its name. *)
Theorem filter_candidates_selected getImplementations a d mff p x :
  x ∈ filter getImplementations a d mff p →
  x ∈ getImplementations ∧
  supports x (mkConfig d a) mff = true ∧
  (p ≠ EmptyString → name x = p).
Proof.
  intros Hx. split.
  { eapply elem_of_sublist; [exact Hx|]. apply filter_loop_sublist. }
  pose proof (filter_loop_selected getImplementations (mkConfig d a) mff p) as Hall.
  rewrite Forall_forall in Hall. apply Hall, selected_true in Hx as [Hname Hsup].
  split; [done|]. intros Hp. by destruct Hname.
Qed.

(** Up to the first entry that is both selected and shape-agnostic the loop
    is a plain selection: no such entry among [pre] means every selected
    entry of [pre] is a candidate, in order, followed by the candidates from
    the rest of the registry. *)
Theorem filter_before_first_agnostic pre rest a d mff p :
  Forall (λ y, selected y (mkConfig d a) mff p && shapeAgnostic y = false) pre →
  filter (pre ++ rest) a d mff p =
  base.filter (λ y, Is_true (selected y (mkConfig d a) mff p)) pre
    ++ filter rest a d mff p.
Proof.
  unfold filter; simpl. induction 1 as [|y pre Hy _ IH]; [done|].
  simpl app. rewrite filter_loop_cons.
  destruct (selected y _ _ _) eqn:Hsel; simpl in Hy.
  - rewrite Hy, IH, filter_cons_True by (rewrite ?Hsel; done). done.
  - rewrite IH, filter_cons_False by (rewrite ?Hsel; simpl; tauto). done.
Qed.

(** A priority override amounts to striking every entry of another name from
    the registry before filtering without override. *)
Theorem filter_override_restricts getImplementations a d mff p :
  p ≠ EmptyString →
  filter getImplementations a d mff p =
  filter (base.filter (λ y, name y = p) getImplementations) a d mff EmptyString.
Proof.
  intros Hp. unfold filter; simpl.
  induction getImplementations as [|y rest IH]; [done|].
  rewrite filter_loop_cons. destruct (decide (name y = p)) as [Hy|Hy].
  - rewrite filter_cons_True, filter_loop_cons, IH by done.
    replace (selected y (mkConfig d a) mff EmptyString)
      with (selected y (mkConfig d a) mff p); [done|].
    unfold selected, string_empty.
    rewrite (bool_decide_eq_true_2 (name y = p) Hy),
      (bool_decide_eq_true_2 (EmptyString = EmptyString) eq_refl); simpl.
    by rewrite andb_false_r.
  - rewrite filter_cons_False, IH by done.
    replace (selected y (mkConfig d a) mff p) with false; [done|].
    unfold selected, string_empty.
    by rewrite (bool_decide_eq_false_2 _ Hy), (bool_decide_eq_false_2 _ Hp).
Qed.

(** Entries registered at lower priority leave the candidates drawn from the
    entries before them in place: these stay the head of the list. *)
Theorem filter_prefix_stable higher lower a d mff p :
  filter higher a d mff p `prefix_of` filter (higher ++ lower) a d mff p.
Proof.
  unfold filter; simpl. induction higher as [|y higher IH]; [apply prefix_nil|].
  simpl app. rewrite !filter_loop_cons.
  destruct (selected y _ _ _); [|done].
  apply prefix_cons. by destruct (shapeAgnostic y).
Qed.

(** Filtering the candidate list again, as if it were the registry, gives
    the candidate list back. *)
Theorem filter_idempotent getImplementations a d mff p :
  filter (filter getImplementations a d mff p) a d mff p =
  filter getImplementations a d mff p.
Proof.
  unfold filter; simpl. induction getImplementations as [|y rest IH]; [done|].
  rewrite filter_loop_cons. destruct (selected y _ _ _) eqn:Hsel; [|done].
  rewrite filter_loop_cons, Hsel.
  destruct (shapeAgnostic y); [done|]. by rewrite IH.
Qed.

Lemma filter_loop_unique_name getImplementations config mff p :
  p ≠ EmptyString →
  NoDup (name <$> getImplementations) →
  length (filter_loop getImplementations config mff p) ≤ 1.
Proof.
  intros Hp. induction getImplementations as [|y rest IH]; intros Hnames.
  { simpl; lia. }
  rewrite fmap_cons in Hnames. apply NoDup_cons in Hnames as [Hy Hrest].
  rewrite filter_loop_cons.
  destruct (selected y config mff p) eqn:Hsel; [|by apply IH].
  apply selected_true in Hsel as [[?|Hname] _]; [done|].
  rewrite filter_loop_no_such_name.
  - destruct (shapeAgnostic y); simpl; lia.
  - done.
  - apply Forall_forall. intros z Hz Heq. apply Hy.
    rewrite Hname, <-Heq. by apply list_elem_of_fmap_2.
Qed.

(** With implementation names unique in the registry, a factory constructed
    under a priority override holds exactly one candidate, the one of that
    name, and [make] never answers with a Variable executor. *)
Theorem override_single_candidate getImplementations createConfig a context d mff p this :
  NoDup (name <$> getImplementations) →
  p ≠ EmptyString →
  ExecutorFactory_new getImplementations a context d mff p = Ok this →
  ∃ x, m_suitableImplementations this = [x] ∧ name x = p ∧
       ∀ memory, ∃ e, make createConfig memory this = Ok (e, this) ∧
                      is_Variable e = false.
Proof.
  intros Hnames Hp Hnew.
  apply ExecutorFactory_new_Ok in Hnew as [Hthis Hne].
  pose proof (filter_loop_unique_name getImplementations (mkConfig d a) mff p
                Hp Hnames) as Hlen.
  pose proof (filter_loop_selected getImplementations (mkConfig d a) mff p) as Hsel.
  assert (Hcand : m_suitableImplementations this
                  = filter_loop getImplementations (mkConfig d a) mff p)
    by by rewrite Hthis.
  rewrite <-Hcand in Hlen, Hsel.
  destruct (m_suitableImplementations this) as [|x [|??]] eqn:Himpls;
    [done| |simpl in Hlen; lia].
  exists x. split; [done|]. split.
  - apply Forall_cons in Hsel as [[[?|?] _]%selected_true _]; done.
  - intros memory. rewrite (make_single _ _ _ x Himpls).
    destruct (requiresFallback x _); eauto.
Qed.

(** When the highest-priority entry that passes the tests is shape-agnostic,
    it is the only candidate and construction succeeds with it alone. *)
Theorem first_selected_agnostic_alone pre x post a context d mff p :
  Forall (λ y, selected y (mkConfig d a) mff p = false) pre →
  selected x (mkConfig d a) mff p = true →
  shapeAgnostic x = true →
  filter (pre ++ x :: post) a d mff p = [x] ∧
  ExecutorFactory_new (pre ++ x :: post) a context d mff p
    = Ok (mkFactory a context [x]).
Proof.
  intros Hpre Hsel Hx.
  assert (Hfilter : filter (pre ++ x :: post) a d mff p = [x]).
  { unfold filter; simpl. induction Hpre as [|y pre Hy _ IH]; simpl app.
    - by rewrite filter_loop_cons, Hsel, Hx.
    - by rewrite filter_loop_cons, Hy. }
  split; [done|]. unfold ExecutorFactory_new; simpl. by rewrite Hfilter.
Qed.

(** The query and the build agree on a single candidate: for memory
    arguments realizing the descriptors [d], [make] builds a Simple executor
    exactly where the query hands [d] back because no fallback is asked for,
    and a Fallback executor over the very fallback config whose descriptors
    the query returns. *)
Theorem make_agrees_with_query createConfig this memory d x :
  m_suitableImplementations this = [x] →
  createConfig memory (m_attrs this) = mkConfig d (m_attrs this) →
  ∃ e proper,
    make createConfig memory this = Ok (e, this) ∧
    getProperMemoryDescriptors d this = Ok ([proper], this) ∧
    match e with
    | Simple _ =>
        requiresFallback x (mkConfig d (m_attrs this)) = None ∧ proper = d
    | Fallback config fallbackConfig _ _ _ =>
        requiresFallback x (mkConfig d (m_attrs this)) = Some fallbackConfig ∧
        config = mkConfig d (m_attrs this) ∧ proper = descs fallbackConfig
    | VariableExecutor _ _ _ _ => False
    end.
Proof.
  intros Hone Hcfg.
  rewrite (make_single _ _ _ x Hone), getProperMemoryDescriptors_runs, Hone, Hcfg.
  unfold getProperMemoryDescArgs; simpl.
  destruct (requiresFallback x _) as [fallbackConfig|]; eexists _, _; done.
Qed.

(** With two or more candidates construction succeeds and [make] hands the
    Variable executor the memory arguments, the attrs, the context and the
    whole candidate list, in priority order. *)
Theorem make_variable_holds_candidates getImplementations createConfig
    a context d mff p memory :
  2 ≤ length (filter getImplementations a d mff p) →
  ∃ this,
    ExecutorFactory_new getImplementations a context d mff p = Ok this ∧
    make createConfig memory this =
    Ok (VariableExecutor memory a context (filter getImplementations a d mff p),
        this).
Proof.
  intros Hlen. exists (mkFactory a context (filter getImplementations a d mff p)).
  split.
  - unfold ExecutorFactory_new; simpl.
    destruct (filter getImplementations a d mff p); [simpl in Hlen; lia|done].
  - rewrite make_several; [done|]. simpl. lia.
Qed.

Lemma filter_loop_nil_iff getImplementations config mff p :
  filter_loop getImplementations config mff p = [] ↔
  Forall (λ y, selected y config mff p = false) getImplementations.
Proof.
  induction getImplementations as [|y rest IH].
  { split; [constructor|done]. }
  rewrite filter_loop_cons, Forall_cons.
  destruct (selected y config mff p).
  - split; [done|]. by intros [? _].
  - rewrite IH. split; [done|]. by intros [_ ?].
Qed.

(** Construction succeeds exactly when some registered implementation
    supports the configuration under the layout filter and, if an override
    is given, bears its name. *)
Theorem construction_succeeds_iff_some_supported getImplementations a context d mff p :
  (∃ this, ExecutorFactory_new getImplementations a context d mff p = Ok this) ↔
  ∃ x, x ∈ getImplementations ∧
       supports x (mkConfig d a) mff = true ∧
       (p = EmptyString ∨ name x = p).
Proof.
  pose proof (filter_loop_sublist getImplementations (mkConfig d a) mff p) as Hsub.
  pose proof (filter_loop_selected getImplementations (mkConfig d a) mff p) as Hsel.
  unfold ExecutorFactory_new; simpl. unfold filter; simpl.
  destruct (filter_loop getImplementations (mkConfig d a) mff p) as [|x l] eqn:Hf;
    simpl.
  - apply filter_loop_nil_iff in Hf. rewrite Forall_forall in Hf. split.
    + by intros [? ?].
    + intros (x & Hx & Hsup & Hname). specialize (Hf x Hx).
      assert (selected x (mkConfig d a) mff p = true) by by apply selected_true.
      congruence.
  - split; [intros _|by eauto].
    apply Forall_cons in Hsel as [[Hname Hsup]%selected_true _].
    exists x. split; [|done].
    eapply elem_of_sublist; [|exact Hsub]. apply list_elem_of_here.
Qed.

(** The candidates are a head segment of the plain selection of the
    registry: the first candidate is the highest-priority entry that passes
    the tests, and nothing that passes is skipped before the loop stops. *)
Theorem filter_prefix_of_selection getImplementations a d mff p :
  filter getImplementations a d mff p `prefix_of`
  base.filter (λ y, Is_true (selected y (mkConfig d a) mff p)) getImplementations.
Proof.
  unfold filter; simpl. induction getImplementations as [|y rest IH].
  { apply prefix_nil. }
  rewrite filter_loop_cons. destruct (selected y _ _ _) eqn:Hsel.
  - rewrite filter_cons_True by (by rewrite Hsel).
    apply prefix_cons. destruct (shapeAgnostic y); [apply prefix_nil|done].
  - rewrite filter_cons_False by (rewrite Hsel; simpl; tauto). done.
Qed.

End ExecutorFactory_further.

Section registry_further.
Import intel_cpu registry.

Lemma registry_names_unique : NoDup (name <$> implementations).
Proof. apply (bool_decide_unpack _). vm_compute. exact I. Qed.

Lemma filter_candidates_selected_witness :
  implB ∈ filter implementations () F1 (Some F2) no_priority ∧
  implB ∈ implementations ∧
  supports implB (mkConfig F1 ()) (Some F2) = true ∧
  (no_priority ≠ EmptyString → name implB = no_priority).
Proof.
  assert (Hin : implB ∈ filter implementations () F1 (Some F2) no_priority).
  { rewrite filter_F2. apply list_elem_of_here. }
  split; [exact Hin|].
  exact (filter_candidates_selected implementations () F1 (Some F2) no_priority
           implB Hin).
Defined.

Lemma filter_before_first_agnostic_witness :
  filter ([implA] ++ [implB; implC]) () F1 None no_priority =
  base.filter (λ y, Is_true (selected y (mkConfig F1 ()) None no_priority)) [implA]
    ++ filter [implB; implC] () F1 None no_priority.
Proof.
  apply (filter_before_first_agnostic [implA] [implB; implC] () F1 None no_priority).
  repeat constructor.
Defined.

Lemma filter_override_restricts_witness :
  filter implementations () F2 None "C" =
  filter (base.filter (λ y, name y = "C") implementations) () F2 None EmptyString.
Proof.
  apply (filter_override_restricts implementations () F2 None "C").
  discriminate.
Defined.

Lemma override_single_candidate_witness :
  ∃ x, [implC] = [x] ∧ name x = "C" ∧
       ∀ memory, ∃ e, make createConfig memory (mkFactory () () [implC])
                        = Ok (e, mkFactory () () [implC]) ∧
                      is_Variable e = false.
Proof.
  assert (Hp : "C" ≠ EmptyString) by discriminate.
  exact (override_single_candidate implementations createConfig () () F2 None "C"
           (mkFactory () () [implC]) registry_names_unique Hp eq_refl).
Defined.

Lemma first_selected_agnostic_alone_witness :
  filter ([implA] ++ implB :: [implC]) () F1 (Some F2) no_priority = [implB] ∧
  ExecutorFactory_new ([implA] ++ implB :: [implC]) () () F1 (Some F2) no_priority
    = Ok (mkFactory () () [implB]).
Proof.
  apply (first_selected_agnostic_alone [implA] implB [implC] () () F1 (Some F2)
           no_priority).
  - repeat constructor.
  - reflexivity.
  - reflexivity.
Defined.

Lemma make_agrees_with_query_witness :
  ∃ e proper,
    make createConfig F1 (mkFactory () () [implB])
      = Ok (e, mkFactory () () [implB]) ∧
    getProperMemoryDescriptors F1 (mkFactory () () [implB])
      = Ok ([proper], mkFactory () () [implB]) ∧
    match e with
    | Simple _ => requiresFallback implB (mkConfig F1 ()) = None ∧ proper = F1
    | Fallback config fallbackConfig _ _ _ =>
        requiresFallback implB (mkConfig F1 ()) = Some fallbackConfig ∧
        config = mkConfig F1 () ∧ proper = descs fallbackConfig
    | VariableExecutor _ _ _ _ => False
    end.
Proof.
  exact (make_agrees_with_query createConfig (mkFactory () () [implB]) F1 F1 implB
           eq_refl eq_refl).
Defined.

Lemma make_variable_holds_candidates_witness :
  ∃ this,
    ExecutorFactory_new implementations () () F1 None no_priority = Ok this ∧
    make createConfig F2 this =
    Ok (VariableExecutor F2 () () (filter implementations () F1 None no_priority),
        this).
Proof.
  apply (make_variable_holds_candidates implementations createConfig () () F1 None
           no_priority F2).
  vm_compute. lia.
Defined.

End registry_further.

(** * Further properties of the TopK-11 downgrade *)

Section ConvertTopK11ToTopK3_further.
Import pass.
Variable transformation_callback : Graph → nat → bool.

Implicit Types (g : Graph) (m : Matcher) (p root : nat) (node n : Node).
Implicit Types (a : TopK_v11) (data k : Output).

(** What a firing callback read and what it left. *)
Lemma callback_true_inv m g g' :
  callback transformation_callback m g = Ok (true, g') →
  ∃ node a data k,
    g !! get_match_root m = Some node ∧ op node = opset11_TopK a ∧
    get_stable a = false ∧
    inputs node !! 0 = Some data ∧ inputs node !! 1 = Some k ∧
    g' = replace_node (get_match_root m) (fresh (dom g))
           (<[fresh (dom g) :=
                mkNode (opset3_TopK (mkTopK_v3 (get_axis a) (get_mode a)
                                               (get_sort_type a)
                                               (get_index_element_type a)))
                       [data; k] (get_friendly_name node) (get_rt_info node)]> g).
Proof.
  intros Hcb.
  destruct (callback_cases _ _ _ _ _ Hcb)
    as [(? & _)|(node & a & data & k & Hroot & Hop & Hstable & Hveto & Hd & Hk & _)];
    [done|].
  rewrite (callback_fires _ _ _ _ _ _ _ Hroot Hop Hstable Hveto Hd Hk) in Hcb.
  injection Hcb as <-. by exists node, a, data, k.
Qed.

Lemma callback_false_inv m g g' :
  callback transformation_callback m g = Ok (false, g') → g' = g.
Proof.
  intros Hcb.
  destruct (callback_cases _ _ _ _ _ Hcb) as [(_ & -> & _)|(?&?&?&?&?&?&?&?&?&?&?)];
    done.
Qed.

(** A graph without dangling inputs stays so under the callback, whether it
    fires or not. *)
Theorem callback_keeps_closed m g b g' :
  closed g →
  callback transformation_callback m g = Ok (b, g') →
  closed g'.
Proof.
  intros Hclosed Hcb. destruct b; [|by apply callback_false_inv in Hcb as ->].
  destruct (callback_true_inv _ _ _ Hcb)
    as (node & a & data & k & Hroot & _ & _ & Hd & Hk & ->).
  pose proof (fresh_ne _ _ _ Hroot) as Hnew.
  set (root := get_match_root m) in *. set (new := fresh (dom g)) in *.
  set (topk_v3 := mkNode _ [data; k] _ _).
  assert (Hold : ∀ c n o, (<[new := topk_v3]> g) !! c = Some n → o ∈ inputs n →
                          is_Some (g !! get_node o)).
  { intros c n o Hn Ho. destruct (decide (c = new)) as [->|Hc].
    - rewrite lookup_insert_eq in Hn. injection Hn as <-. simpl in Ho.
      apply (Hclosed root node o Hroot).
      apply list_elem_of_lookup.
      apply elem_of_cons in Ho as [->|Ho]; [by exists 0|].
      apply list_elem_of_singleton in Ho as ->. by exists 1.
    - rewrite lookup_insert_ne in Hn by done. by apply (Hclosed c n o). }
  intros c n o Hn Ho.
  destruct (decide (c = root)) as [->|Hc].
  { by rewrite replace_node_target in Hn. }
  rewrite replace_node_other in Hn by done.
  apply fmap_Some in Hn as (n0 & Hn0 & ->). simpl in Ho.
  apply list_elem_of_fmap in Ho as (o0 & -> & Ho0).
  destruct (Hold c n0 o0 Hn0 Ho0) as [n1 Hn1].
  unfold redirect. case_bool_decide as Ho; simpl.
  - rewrite replace_node_other, lookup_insert_eq by done. by eexists.
  - rewrite replace_node_other by done.
    rewrite lookup_insert_ne, Hn1; [by eexists|].
    intros Heq. rewrite <-Heq in Hn1. unfold new in Hn1.
    rewrite fresh_unused in Hn1. done.
Qed.

Lemma rewire_inputs_id target replacement (ins : list Output) :
  Forall (λ o, get_node o ≠ target) ins →
  redirect target replacement <$> ins = ins.
Proof.
  induction 1 as [|o ins Ho _ IH]; [done|].
  by rewrite fmap_cons, redirect_id, IH.
Qed.

(** A firing touches nothing but edges into the matched root: every other
    node keeps its operation, name, runtime info and number of inputs, and a
    node that does not read the root is left exactly as it was. *)
Theorem callback_leaves_others m g g' c n :
  callback transformation_callback m g = Ok (true, g') →
  g !! c = Some n →
  c ≠ get_match_root m →
  ∃ n', g' !! c = Some n' ∧
        op n' = op n ∧
        get_friendly_name n' = get_friendly_name n ∧
        get_rt_info n' = get_rt_info n ∧
        length (inputs n') = length (inputs n) ∧
        ((∀ o, o ∈ inputs n → get_node o ≠ get_match_root m) → n' = n).
Proof.
  intros (node & a & data & k & Hroot & _ & _ & _ & _ & ->)%callback_true_inv Hc Hne.
  assert (Hcnew : c ≠ fresh (dom g)).
  { intros ->. by rewrite fresh_unused in Hc. }
  exists (rewire (get_match_root m) (fresh (dom g)) n).
  rewrite replace_node_other, lookup_insert_ne, Hc by done.
  split_and!; try done.
  - simpl. by rewrite length_fmap.
  - intros Haway. destruct n as [o ins nm rt]; unfold rewire; simpl in *. f_equal.
    apply rewire_inputs_id. by apply Forall_forall.
Qed.

Lemma filter_topk_v11_rewire target replacement g :
  filter (λ cn : nat * Node, topk_v11_pattern cn.2 = true)
         (rewire target replacement <$> g) =
  rewire target replacement <$>
    filter (λ cn : nat * Node, topk_v11_pattern cn.2 = true) g.
Proof.
  apply map_eq. intros j. apply option_eq. intros y.
  rewrite map_lookup_filter_Some, !lookup_fmap, !fmap_Some.
  setoid_rewrite map_lookup_filter_Some. split.
  - intros [(x & Hx & ->) HP]. by exists x.
  - intros (x & [Hx HP] & ->). split; [by exists x|done].
Qed.

Lemma count_after_replace g root node a (topk_v3 : Node) :
  g !! root = Some node →
  op node = opset11_TopK a →
  topk_v11_pattern topk_v3 = false →
  count_topk_v11 g =
  S (count_topk_v11 (replace_node root (fresh (dom g))
                       (<[fresh (dom g) := topk_v3]> g))).
Proof.
  intros Hroot Hop Hv3. unfold count_topk_v11, replace_node.
  rewrite map_filter_delete, filter_topk_v11_rewire.
  rewrite map_filter_insert_not'.
  2:{ simpl. by rewrite Hv3. }
  2:{ intros y. by rewrite fresh_unused. }
  rewrite map_size_delete_Some, map_size_fmap.
  2:{ rewrite lookup_fmap.
      erewrite (proj2 (map_lookup_filter_Some _ g root node)); [by eexists|].
      split; [done|]. simpl. unfold topk_v11_pattern. by rewrite Hop. }
  assert (size (filter (λ cn : nat * Node, topk_v11_pattern cn.2 = true) g) ≠ 0);
    [|lia].
  intros Hzero%map_size_empty_iff.
  assert (Hin : filter (λ cn : nat * Node, topk_v11_pattern cn.2 = true) g !! root
                = Some node).
  { apply map_lookup_filter_Some. split; [done|]. simpl.
    unfold topk_v11_pattern. by rewrite Hop. }
  by rewrite Hzero in Hin.
Qed.

Lemma apply_inv g p b g' :
  apply transformation_callback g p = Ok (b, g') →
  (b = false ∧ g' = g) ∨
  callback transformation_callback (mkMatcher p) g = Ok (true, g') ∧ b = true.
Proof.
  unfold pass.apply. destruct (g !! p) as [n|]; [|by intros [= <- <-]; left].
  destruct (topk_v11_pattern n); [|by intros [= <- <-]; left].
  destruct b; [by right|]. intros Hcb. left.
  by apply callback_false_inv in Hcb as ->.
Qed.

(** A sweep over any nodes answers [false] only with the graph as it was and
    [true] only with fewer version-11 TopK nodes than before. *)
Theorem sweep_flag_faithful ps g b g1 :
  sweep transformation_callback ps g = Ok (b, g1) →
  (b = false → g1 = g) ∧
  (b = true → count_topk_v11 g1 < count_topk_v11 g) ∧
  count_topk_v11 g1 ≤ count_topk_v11 g.
Proof.
  revert g b g1. induction ps as [|p ps IH]; intros g b g1 Hsweep.
  { injection Hsweep as <- <-. split_and!; [done|done|lia]. }
  rewrite sweep_cons in Hsweep.
  destruct (apply transformation_callback g p) as [[b0 g0]| |] eqn:Hstep; try done. simpl in Hsweep.
  destruct (sweep transformation_callback ps g0) as [[b' g0']| |] eqn:Htail; try done.
  injection Hsweep as <- <-.
  destruct (IH _ _ _ Htail) as (Hsame & Hless & Hle).
  destruct (apply_inv _ _ _ _ Hstep) as [[-> ->]|[Hcb ->]]; simpl.
  - split_and!; [exact Hsame|exact Hless|exact Hle].
  - apply callback_true_inv in Hcb
      as (node & a & data & k & Hroot & Hop & _ & _ & _ & ->).
    cbn [get_match_root] in *.
    rewrite (count_after_replace g p node a
               (mkNode (opset3_TopK (mkTopK_v3 (get_axis a) (get_mode a)
                          (get_sort_type a) (get_index_element_type a)))
                       [data; k] (get_friendly_name node) (get_rt_info node))
               Hroot Hop eq_refl).
    split_and!; [done|intros _; lia|lia].
Qed.

Lemma apply_keeps_stable g q b g' p n a :
  apply transformation_callback g q = Ok (b, g') →
  g !! p = Some n → op n = opset11_TopK a → get_stable a = true →
  ∃ n', g' !! p = Some n' ∧ op n' = op n ∧
        get_friendly_name n' = get_friendly_name n ∧
        get_rt_info n' = get_rt_info n.
Proof.
  intros [[-> ->]|[Hcb ->]]%apply_inv Hp Hop Hstable; [by exists n|].
  apply callback_true_inv in Hcb
    as (node & a' & data & k & Hroot & Hop' & Hstable' & _ & _ & ->).
  simpl in *.
  assert (p ≠ q).
  { intros ->. rewrite Hroot in Hp. injection Hp as ->.
    rewrite Hop in Hop'. injection Hop' as ->. congruence. }
  assert (p ≠ fresh (dom g)).
  { intros ->. by rewrite fresh_unused in Hp. }
  exists (rewire q (fresh (dom g)) n).
  by rewrite replace_node_other, lookup_insert_ne, Hp.
Qed.

(** The pass never lowers a TopK that asks for a stable sort: through any
    sweep such a node stays in the graph with its operation, name and runtime
    info. *)
Theorem stable_topk_survives ps g b g1 p n a :
  sweep transformation_callback ps g = Ok (b, g1) →
  g !! p = Some n → op n = opset11_TopK a → get_stable a = true →
  ∃ n1, g1 !! p = Some n1 ∧ op n1 = opset11_TopK a ∧
        get_friendly_name n1 = get_friendly_name n ∧
        get_rt_info n1 = get_rt_info n.
Proof.
  revert g b g1 n. induction ps as [|q ps IH]; intros g b g1 n Hsweep Hp Hop Hstable.
  { injection Hsweep as <- <-. by exists n. }
  rewrite sweep_cons in Hsweep.
  destruct (apply transformation_callback g q) as [[b0 g0]| |] eqn:Hstep; try done. simpl in Hsweep.
  destruct (sweep transformation_callback ps g0) as [[b' g0']| |] eqn:Htail; try done.
  injection Hsweep as <- <-.
  destruct (apply_keeps_stable _ _ _ _ _ _ _ Hstep Hp Hop Hstable)
    as (n0 & Hp0 & Hop0 & Hname0 & Hrt0).
  rewrite Hop in Hop0.
  destruct (IH _ _ _ _ Htail Hp0 Hop0 Hstable) as (n1 & Hp1 & Hop1 & Hname1 & Hrt1).
  exists n1. split_and!; [done|done|congruence|congruence].
Qed.

(** With a veto that looks only at a node's own operation, name and runtime
    info, one run over all nodes lowers every eligible TopK: what is left of
    version 11 in the result asks for a stable sort or is vetoed. *)
Theorem run_lowers_every_eligible order g b g1 :
  veto_local transformation_callback →
  (∀ p, is_Some (g !! p) → p ∈ order g) →
  run_on_model transformation_callback order g = Ok (b, g1) →
  ∀ p n a, g1 !! p = Some n → op n = opset11_TopK a →
           get_stable a = true ∨ transformation_callback g1 p = true.
Proof.
  intros Hlocal Hall Hrun p n a Hn Hop.
  apply orb_true_iff.
  assert (Hsettled : ∀ c, settled transformation_callback g1 c).
  { apply (sweep_settles transformation_callback (order g) Hlocal g b g1 Hrun).
    intros c Hc n' a' Hn'. destruct Hc. apply Hall. by eexists. }
  by apply (Hsettled p n a).
Qed.

Lemma apply_true_inv g p g' :
  apply transformation_callback g p = Ok (true, g') →
  ∃ node a (topk_v3 : Node),
    g !! p = Some node ∧ op node = opset11_TopK a ∧
    topk_v11_pattern topk_v3 = false ∧
    g' = replace_node p (fresh (dom g)) (<[fresh (dom g) := topk_v3]> g).
Proof.
  intros [[? _]|[Hcb _]]%apply_inv; [done|].
  apply callback_true_inv in Hcb
    as (node & a & data & k & Hroot & Hop & _ & _ & _ & ->).
  cbn [get_match_root] in *.
  exists node, a,
    (mkNode (opset3_TopK (mkTopK_v3 (get_axis a) (get_mode a) (get_sort_type a)
                                    (get_index_element_type a)))
            [data; k] (get_friendly_name node) (get_rt_info node)).
  split_and!; done.
Qed.

(** On a node of the graph the pass's answer tells whether it changed the
    graph: [false] comes exactly with the graph as it was, [true] exactly
    with a graph that no longer has the node. *)
Theorem apply_flag_faithful g p n b g' :
  g !! p = Some n →
  apply transformation_callback g p = Ok (b, g') →
  (b = false ↔ g' = g) ∧ (b = true ↔ g' !! p = None).
Proof.
  intros Hn Hstep. destruct b.
  - apply apply_true_inv in Hstep as (node & a & topk_v3 & _ & _ & _ & ->).
    assert (Hgone : replace_node p (fresh (dom g)) (<[fresh (dom g) := topk_v3]> g)
                    !! p = None) by apply replace_node_target.
    split; split; try done.
    intros Heq. rewrite Heq, Hn in Hgone. done.
  - destruct (apply_inv _ _ _ _ Hstep) as [[_ ->]|[_ ?]]; [|done].
    split; split; try done. intros Hnone. by rewrite Hn in Hnone.
Qed.

(** When the pass fires on a node of the graph it trades that node for one
    new node: the new identity was unused before, the node identities
    afterwards are the old ones with the new one in place of the node, and the
    graph has as many nodes as before. *)
Theorem apply_node_set g p n g' :
  g !! p = Some n →
  apply transformation_callback g p = Ok (true, g') →
  (fresh (dom g) ∉ dom g) ∧
  dom g' = ({[fresh (dom g)]} ∪ dom g) ∖ {[p]} ∧
  size g' = size g.
Proof.
  intros Hn (node & a & topk_v3 & _ & _ & _ & ->)%apply_true_inv.
  pose proof (fresh_ne _ _ _ Hn) as Hnew.
  split; [apply is_fresh|].
  unfold replace_node. split.
  - by rewrite dom_delete_L, dom_fmap_L, dom_insert_L.
  - rewrite map_size_delete_Some, map_size_fmap, map_size_insert_None;
      [done|apply fresh_unused|].
    rewrite lookup_fmap, lookup_insert_ne, Hn by done. by eexists.
Qed.

(** Each firing of the pass on a node of the graph takes one version-11 TopK
    out of the graph and brings none in. *)
Theorem apply_consumes_topk_v11 g p n g' :
  g !! p = Some n →
  apply transformation_callback g p = Ok (true, g') →
  count_topk_v11 g = S (count_topk_v11 g').
Proof.
  intros _ (node & a & topk_v3 & Hroot & Hop & Hv3 & ->)%apply_true_inv.
  by apply (count_after_replace g p node a).
Qed.

(** ** The driver's loop *)






End ConvertTopK11ToTopK3_further.

Section graph_further.
Import pass.

Lemma closed_by_check (g : Graph) :
  map_Forall (λ _ n, Forall (λ o, is_Some (g !! get_node o)) (inputs n)) g →
  closed g.
Proof.
  intros Hall c n o Hn Ho.
  specialize (Hall c n Hn). rewrite Forall_forall in Hall. by apply Hall.
Qed.

Lemma chain_closed : closed chain.
Proof. apply closed_by_check, (bool_decide_unpack _). vm_compute. exact I. Qed.

Lemma callback_keeps_closed_witness : closed chain ∧ closed chain_root_lowered.
Proof.
  split; [exact chain_closed|].
  exact (callback_keeps_closed never (mkMatcher 0) chain true chain_root_lowered
           chain_closed callback_on_chain_root).
Defined.

Lemma callback_leaves_others_witness :
  ∃ n', chain_root_lowered !! 10 = Some n' ∧
        op n' = op (parameter "data") ∧
        get_friendly_name n' = get_friendly_name (parameter "data") ∧
        get_rt_info n' = get_rt_info (parameter "data") ∧
        length (inputs n') = length (inputs (parameter "data")) ∧
        ((∀ o, o ∈ inputs (parameter "data") → get_node o ≠ 0) →
         n' = parameter "data").
Proof.
  assert (Hdata : chain !! 10 = Some (parameter "data"))
    by (vm_compute; reflexivity).
  assert (Hne : 10 ≠ 0) by lia.
  exact (callback_leaves_others never (mkMatcher 0) chain chain_root_lowered 10
           (parameter "data") callback_on_chain_root Hdata Hne).
Defined.

Example apply_on_chain_root :
  apply never chain 0 = Ok (true, chain_root_lowered).
Proof. vm_compute. reflexivity. Qed.

Lemma chain_root :
  chain !! 0 =
  Some (mkNode (opset11_TopK (mkTopK_v11 1 MAX SORT_VALUES i32 false))
          [mkOutput 10 0; mkOutput 11 0] "A" {["origin" := "model"]}).
Proof. vm_compute. reflexivity. Qed.

Lemma apply_flag_faithful_witness :
  (true = false ↔ chain_root_lowered = chain) ∧
  (true = true ↔ chain_root_lowered !! 0 = None).
Proof.
  exact (apply_flag_faithful never chain 0 _ true chain_root_lowered
           chain_root apply_on_chain_root).
Defined.

Lemma apply_node_set_witness :
  (fresh (dom chain) ∉ dom chain) ∧
  dom chain_root_lowered = ({[fresh (dom chain)]} ∪ dom chain) ∖ {[0]} ∧
  size chain_root_lowered = size chain.
Proof.
  exact (apply_node_set never chain 0 _ chain_root_lowered
           chain_root apply_on_chain_root).
Defined.

Lemma apply_consumes_topk_v11_witness :
  count_topk_v11 chain = S (count_topk_v11 chain_root_lowered).
Proof.
  exact (apply_consumes_topk_v11 never chain 0 _ chain_root_lowered
           chain_root apply_on_chain_root).
Defined.




Lemma sweep_flag_faithful_witness :
  (true = false → chain_lowered = chain) ∧
  (true = true → count_topk_v11 chain_lowered < count_topk_v11 chain) ∧
  count_topk_v11 chain_lowered ≤ count_topk_v11 chain.
Proof.
  exact (sweep_flag_faithful never (ascending chain) chain true chain_lowered
           chain_run_no_veto).
Defined.

Lemma stable_topk_survives_witness :
  ∃ g1 n1,
    sweep never (ascending stable_chain) stable_chain = Ok (true, g1) ∧
    g1 !! 0 = Some n1 ∧
    op n1 = opset11_TopK (mkTopK_v11 1 MAX SORT_VALUES i32 true) ∧
    get_friendly_name n1 = "A" ∧
    get_rt_info n1 = ∅.
Proof.
  destruct stable_chain_run as (g1 & Hrun & _).
  assert (Hroot : stable_chain !! 0 =
            Some (mkNode (opset11_TopK (mkTopK_v11 1 MAX SORT_VALUES i32 true))
                    [mkOutput 10 0; mkOutput 11 0] "A" ∅))
    by (vm_compute; reflexivity).
  destruct (stable_topk_survives never (ascending stable_chain) stable_chain true g1
              0 _ _ Hrun Hroot eq_refl eq_refl) as (n1 & Hn1 & Hop1 & Hname1 & Hrt1).
  exists g1, n1. repeat (split; [assumption|]). assumption.
Defined.

Lemma run_lowers_every_eligible_witness :
  ∃ g1 n,
    run_on_model never ascending stable_chain = Ok (true, g1) ∧
    g1 !! 0 = Some n ∧
    op n = opset11_TopK (mkTopK_v11 1 MAX SORT_VALUES i32 true) ∧
    (get_stable (mkTopK_v11 1 MAX SORT_VALUES i32 true) = true
     ∨ never g1 0 = true).
Proof.
  destruct stable_chain_run as (g1 & Hrun & Hop0 & _).
  apply fmap_Some in Hop0 as (n & Hn & Hop). symmetry in Hop.
  exists g1, n. split; [exact Hrun|]. split; [exact Hn|]. split; [exact Hop|].
  exact (run_lowers_every_eligible never ascending stable_chain true g1
           never_local (ascending_all stable_chain) Hrun 0 n _ Hn Hop).
Defined.

End graph_further.
